(** * The MIMO beamforming response of demomimo.py

    A shallow embedding of [mimo_array_response] (demomimo.py, lines 53-94)
    and of the bearing folding (lines 108-112), with the properties the
    specification states about them; then of the script around them (the
    location read, the beam steering, the sweep, the two calls and the
    performance metrics), with the geolocation component and the sidebar
    widgets as arguments, and what the script itself guarantees.

    Numbers.  The program computes with IEEE-754 doubles.  They are modelled
    by the type [f64]: a real number, or one of the special values NaN,
    +infinity and -infinity.  Arithmetic on finite values is exact (rounding,
    overflow and the sign of zero are not modelled); division by zero, the
    logarithm of zero and operations on special values follow IEEE-754.
    So the results below are about the program in exact arithmetic with
    IEEE special values.  Where the doubles of the program are known to
    depart from it, the statements keep to inputs on which both agree or say
    so:
    - a null of the array pattern is the real number 0 here and about 1e-17
      in doubles, so a sweep made of nulls only gives 0/0 = NaN here and
      finite values there;
    - the end points of [np.blackman(2)] are 0 here and about -1.4e-17 in
      doubles (those of [np.hanning(2)] are 0 in both);
    - [sin(radians(180 - x))] and [sin(radians(x))] are one real number here
      and can differ in the last bits in doubles, and widely for angles of
      the order of 1e15;
    - the samples of [np.linspace(-a, a, num)] are mirror-symmetric here and
      symmetric up to rounding in doubles;
    - [10 ** x] is a positive real here for every finite [x]; Python raises
      OverflowError above about 308.25 and returns 0.0 below about -323.3,
      which the input SNR of the slider (0 to 30 dB, [x] from 0 to 3) never
      reaches.

    Library functions.  numpy's [hamming], [hanning], [blackman], [ones],
    [arange], [linalg.norm], [outer], [sum], [max], [linspace], [arctan2],
    [degrees], [log2] are modelled from their documented behaviour (the window formulas are the ones section 9 of the
    specification restates). *)

From Stdlib Require Import Reals Lra Lia ZArith String List Bool.
Import ListNotations.

Open Scope R_scope.

(** ** Doubles with IEEE special values *)

Inductive f64 : Type :=
| Fin (x : R)
| NaN
| PInf
| NInf.

Definition fneg (a : f64) : f64 :=
  match a with
  | Fin x => Fin (- x)
  | NaN => NaN
  | PInf => NInf
  | NInf => PInf
  end.

Definition fadd (a b : f64) : f64 :=
  match a, b with
  | NaN, _ | _, NaN => NaN
  | Fin x, Fin y => Fin (x + y)
  | PInf, NInf | NInf, PInf => NaN
  | PInf, _ | _, PInf => PInf
  | NInf, _ | _, NInf => NInf
  end.

Definition fsub (a b : f64) : f64 := fadd a (fneg b).

(** An infinity times the finite [x]: NaN for zero, else by the signs. *)
Definition inf_times (positive : bool) (x : R) : f64 :=
  if Req_dec_T x 0 then NaN
  else if Rlt_dec 0 x then (if positive then PInf else NInf)
       else (if positive then NInf else PInf).

Definition fmul (a b : f64) : f64 :=
  match a, b with
  | NaN, _ | _, NaN => NaN
  | Fin x, Fin y => Fin (x * y)
  | Fin x, PInf | PInf, Fin x => inf_times true x
  | Fin x, NInf | NInf, Fin x => inf_times false x
  | PInf, PInf | NInf, NInf => PInf
  | PInf, NInf | NInf, PInf => NInf
  end.

(** Division: 0/0 is NaN and x/0 an infinity (zero taken as +0). *)
Definition fdiv (a b : f64) : f64 :=
  match a, b with
  | NaN, _ | _, NaN => NaN
  | Fin x, Fin y =>
      if Req_dec_T y 0 then
        (if Req_dec_T x 0 then NaN else if Rlt_dec 0 x then PInf else NInf)
      else Fin (x / y)
  | Fin _, PInf | Fin _, NInf => Fin 0
  | PInf, Fin y => if Rlt_dec y 0 then NInf else PInf
  | NInf, Fin y => if Rlt_dec y 0 then PInf else NInf
  | PInf, PInf | PInf, NInf | NInf, PInf | NInf, NInf => NaN
  end.

Definition fsqrt (a : f64) : f64 :=
  match a with
  | Fin x => if Rlt_dec x 0 then NaN else Fin (sqrt x)
  | PInf => PInf
  | NaN | NInf => NaN
  end.

Definition fexp (a : f64) : f64 :=
  match a with
  | Fin x => Fin (exp x)
  | NaN => NaN
  | PInf => PInf
  | NInf => Fin 0
  end.

Definition fsin (a : f64) : f64 :=
  match a with
  | Fin x => Fin (sin x)
  | _ => NaN
  end.

Definition fcos (a : f64) : f64 :=
  match a with
  | Fin x => Fin (cos x)
  | _ => NaN
  end.

(** [np.log10]: -infinity at zero, NaN below it. *)
Definition flog10 (a : f64) : f64 :=
  match a with
  | Fin x =>
      if Rlt_dec x 0 then NaN
      else if Req_dec_T x 0 then NInf
      else Fin (ln x / ln 10)
  | PInf => PInf
  | NaN | NInf => NaN
  end.

(** [hypot]: an infinite component wins over NaN. *)
Definition fhypot (a b : f64) : f64 :=
  match a, b with
  | PInf, _ | NInf, _ | _, PInf | _, NInf => PInf
  | NaN, _ | _, NaN => NaN
  | Fin x, Fin y => Fin (sqrt (x * x + y * y))
  end.

(** The maximum [np.max] folds with: NaN propagates. *)
Definition fmaximum (a b : f64) : f64 :=
  match a, b with
  | NaN, _ | _, NaN => NaN
  | PInf, _ | _, PInf => PInf
  | NInf, y => y
  | x, NInf => x
  | Fin x, Fin y => Fin (Rmax x y)
  end.

(** The comparisons [<], [<=] and [==] of doubles: false on NaN. *)
Definition fltb (a b : f64) : bool :=
  match a, b with
  | NaN, _ | _, NaN => false
  | Fin x, Fin y => if Rlt_dec x y then true else false
  | NInf, Fin _ | NInf, PInf | Fin _, PInf => true
  | _, _ => false
  end.

Definition fle (a b : f64) : Prop :=
  match a, b with
  | NaN, _ | _, NaN => False
  | Fin x, Fin y => x <= y
  | NInf, _ | _, PInf => True
  | _, _ => False
  end.


Definition is_nan (a : f64) : Prop :=
  match a with NaN => True | _ => False end.

(** Equality within the tolerance of the specification's tests. *)
Definition within_tol (a b : f64) : Prop :=
  match a, b with
  | Fin x, Fin y => Rabs (x - y) <= 1 / 1000000000
  | _, _ => False
  end.

(** ** Complex doubles *)

Record complex : Type := Cx { re : f64; im : f64 }.

Definition of_real (x : f64) : complex := Cx x (Fin 0).

Definition cadd (a b : complex) : complex :=
  Cx (fadd (re a) (re b)) (fadd (im a) (im b)).

Definition cmul (a b : complex) : complex :=
  Cx (fsub (fmul (re a) (re b)) (fmul (im a) (im b)))
     (fadd (fmul (re a) (im b)) (fmul (im a) (re b))).

Definition cconj (a : complex) : complex := Cx (re a) (fneg (im a)).

Definition cexp (a : complex) : complex :=
  Cx (fmul (fexp (re a)) (fcos (im a))) (fmul (fexp (re a)) (fsin (im a))).

Definition cabs (a : complex) : f64 := fhypot (re a) (im a).

Definition czero : complex := Cx (Fin 0) (Fin 0).

(** ** Exceptions *)

Inductive exn : Type :=
| ValueError (msg : string).

Inductive result (A : Type) : Type :=
| Ok (a : A)
| Err (e : exn).

Arguments Ok {A} a.
Arguments Err {A} e.

Definition bind {A B : Type} (m : result A) (f : A -> result B) : result B :=
  match m with
  | Ok a => f a
  | Err e => Err e
  end.

Notation "x <- m ;; f" := (bind m (fun x => f))
  (at level 61, m at next level, right associativity).

Definition raises {A : Type} (m : result A) : Prop :=
  exists e, m = Err e.

(** ** numpy *)

Fixpoint zip_with {A B C : Type} (f : A -> B -> C) (l : list A) (l' : list B)
  : list C :=
  match l, l' with
  | x :: t, y :: t' => f x y :: zip_with f t t'
  | _, _ => []
  end.

(** [np.arange(N)]: 0, 1, ..., N-1, empty when N <= 0. *)
Definition arange (N : Z) : list Z := map Z.of_nat (seq 0 (Z.to_nat N)).

Definition of_int (n : Z) : f64 := Fin (IZR n).

(** [np.ones(N)] refuses a negative length. *)
Definition np_ones (N : Z) : result (list f64) :=
  if (N <? 0)%Z then Err (ValueError "negative dimensions are not allowed")
  else Ok (repeat (Fin 1) (Z.to_nat N)).

(** The raised-cosine windows of numpy: empty for M < 1, [1.] for M = 1,
    else the coefficient at the angles 2*pi*n/(M-1), n = 0..M-1. *)
Definition cosine_window (coef : R -> R) (M : Z) : list f64 :=
  if (M <? 1)%Z then []
  else if (M =? 1)%Z then [Fin 1]
  else map (fun n => Fin (coef (2 * PI * IZR n / IZR (M - 1)))) (arange M).

Definition hamming_coef (x : R) : R := 0.54 - 0.46 * cos x.
Definition hanning_coef (x : R) : R := 0.5 - 0.5 * cos x.
Definition blackman_coef (x : R) : R := 0.42 - 0.5 * cos x + 0.08 * cos (2 * x).

Definition np_hamming : Z -> list f64 := cosine_window hamming_coef.
Definition np_hanning : Z -> list f64 := cosine_window hanning_coef.
Definition np_blackman : Z -> list f64 := cosine_window blackman_coef.

Definition fsum (l : list f64) : f64 := fold_right fadd (Fin 0) l.

(** [np.linalg.norm] of a real vector. *)
Definition linalg_norm (v : list f64) : f64 :=
  fsqrt (fsum (map (fun x => fmul x x) v)).

(** [np.radians]. *)
Definition np_radians (x : f64) : f64 := fmul x (Fin (PI / 180)).

Definition np_outer (a b : list complex) : list (list complex) :=
  map (fun x => map (fun y => cmul x y) b) a.

Definition csum (l : list complex) : complex := fold_right cadd czero l.

(** [np.sum] of a matrix: the sum of all its entries. *)
Definition np_sum (M : list (list complex)) : complex := csum (concat M).

(** [np.max] refuses an empty array. *)
Definition np_max (l : list f64) : result f64 :=
  match l with
  | [] =>
      Err (ValueError
             "zero-size array to reduction operation maximum which has no identity")
  | x :: t => Ok (fold_left fmaximum t x)
  end.

(** ** mimo_array_response *)

(** Lines 57-58. *)
Definition d : f64 := Fin (1 / 2).
Definition k : f64 := fmul (Fin 2) (Fin PI).

(** The imaginary unit [1j]. *)
Definition j : complex := Cx (Fin 0) (Fin 1).

(** Lines 61-72, for one array: the same branch serves [win_tx] (with Nt)
    and [win_rx] (with Nr). *)
Definition raw_window (window_type : string) (N : Z) : result (list f64) :=
  if String.eqb window_type "Hamming" then Ok (np_hamming N)
  else if String.eqb window_type "Hanning" then Ok (np_hanning N)
  else if String.eqb window_type "Blackman" then Ok (np_blackman N)
  else np_ones N.

(** Lines 75-76: [win / np.linalg.norm(win)]. *)
Definition normalize (win : list f64) : list f64 :=
  map (fun x => fdiv x (linalg_norm win)) win.

(** The window vector of the specification: selection, then normalization. *)
Definition windowVector (window_type : string) (N : Z) : result (list f64) :=
  win <- raw_window window_type N ;;
  Ok (normalize win).

(** [1j * k * d * n * np.sin(np.radians(theta))]; a real factor is promoted
    to a complex number before the product. *)
Definition phase (n : Z) (theta : f64) : complex :=
  cmul (cmul (cmul (cmul j (of_real k)) (of_real d)) (of_real (of_int n)))
       (of_real (fsin (np_radians theta))).

(** Lines 79, 80, 87 and 88:
    [win * np.exp(1j * k * d * np.arange(N) * np.sin(np.radians(theta)))]. *)
Definition steering_vector (win : list f64) (N : Z) (theta : f64)
  : list complex :=
  zip_with (fun w e => cmul (of_real w) e) win
           (map (fun n => cexp (phase n theta)) (arange N)).

(** Lines 83 and 89: [np.outer(rx_vec, tx_vec.conj())]. *)
Definition channel (rx_vec tx_vec : list complex) : list (list complex) :=
  np_outer rx_vec (map cconj tx_vec).

(** Line 90: [np.abs(np.sum(H_steer * H.conj()))]. *)
Definition correlation (H_steer H : list (list complex)) : f64 :=
  cabs (np_sum (zip_with (zip_with cmul) H_steer (map (map cconj) H))).

(** Lines 87-90, the body of the loop. *)
Definition gain (win_tx win_rx : list f64) (Nt Nr : Z)
  (H : list (list complex)) (ang : f64) : f64 :=
  let tx_vec := steering_vector win_tx Nt ang in
  let rx_vec := steering_vector win_rx Nr ang in
  let H_steer := channel rx_vec tx_vec in
  correlation H_steer H.

(** Line 94, for one entry: [20 * np.log10(g / m)]. *)
Definition to_dB (m g : f64) : f64 := fmul (Fin 20) (flog10 (fdiv g m)).

Definition mimo_array_response (Nt Nr : Z) (theta_user : f64)
  (theta : list f64) (window_type : string) : result (list f64) :=
  win_tx <- raw_window window_type Nt ;;
  win_rx <- raw_window window_type Nr ;;
  let win_tx := normalize win_tx in
  let win_rx := normalize win_rx in
  let tx_vec_user := steering_vector win_tx Nt theta_user in
  let rx_vec_user := steering_vector win_rx Nr theta_user in
  let H := channel rx_vec_user tx_vec_user in
  let response := map (gain win_tx win_rx Nt Nr H) theta in
  m <- np_max response ;;
  Ok (map (to_dB m) response).

(** ** The folding of the bearing (lines 108-112) *)

Definition fold_bearing (theta_from_location : f64) : f64 :=
  if fltb (Fin 90) theta_from_location then
    fsub (Fin 180) theta_from_location
  else if fltb theta_from_location (Fin (-90)) then
    fsub (Fin (-180)) theta_from_location
  else theta_from_location.

(** ** The script around the function *)

(** *** More of numpy and of Python's floats *)

(** [x == 0.0], the test behind the truth value of a float. *)
Definition fis_zero (a : f64) : bool :=
  match a with
  | Fin x => if Req_dec_T x 0 then true else false
  | _ => false
  end.

(** [np.arctan2(y, x)] on finite arguments: the angle of the point (x, y)
    in (-pi, pi]. *)
Definition arctan2R (y x : R) : R :=
  if Rlt_dec 0 x then atan (y / x)
  else if Rlt_dec x 0 then
         (if Rlt_dec y 0 then atan (y / x) - PI else atan (y / x) + PI)
       else if Rlt_dec 0 y then PI / 2
            else if Rlt_dec y 0 then - (PI / 2)
                 else 0.

(** [np.arctan2] with its special values (zero taken as +0). *)
Definition np_arctan2 (y x : f64) : f64 :=
  match y, x with
  | NaN, _ | _, NaN => NaN
  | Fin a, Fin b => Fin (arctan2R a b)
  | Fin _, PInf => Fin 0
  | Fin a, NInf => if Rlt_dec a 0 then Fin (- PI) else Fin PI
  | PInf, Fin _ => Fin (PI / 2)
  | NInf, Fin _ => Fin (- (PI / 2))
  | PInf, PInf => Fin (PI / 4)
  | NInf, PInf => Fin (- (PI / 4))
  | PInf, NInf => Fin (3 * PI / 4)
  | NInf, NInf => Fin (- (3 * PI / 4))
  end.

(** [np.degrees]. *)
Definition np_degrees (x : f64) : f64 := fmul x (Fin (180 / PI)).

(** [10 ** x] for a float [x], within the range of doubles (Python raises
    OverflowError when the power exceeds it). *)
Definition pow10 (x : f64) : f64 :=
  match x with
  | Fin r => Fin (Rpower 10 r)
  | NaN => NaN
  | PInf => PInf
  | NInf => Fin 0
  end.

(** [np.log2]: -infinity at zero, NaN below it. *)
Definition flog2 (a : f64) : f64 :=
  match a with
  | Fin x =>
      if Rlt_dec x 0 then NaN
      else if Req_dec_T x 0 then NInf
      else Fin (ln x / ln 2)
  | PInf => PInf
  | NaN | NInf => NaN
  end.

(** [y[-1] = stop]: the last element replaced. *)
Fixpoint set_last (l : list f64) (v : f64) : list f64 :=
  match l with
  | [] => []
  | [_] => [v]
  | x :: t => x :: set_last t v
  end.

(** [np.linspace(start, stop, num)], end point included: [num] samples
    [i * step + start] with [step = (stop - start) / (num - 1)], the last one
    set to [stop]; a negative [num] is refused. *)
Definition np_linspace (start stop : f64) (num : Z) : result (list f64) :=
  if (num <? 0)%Z then
    Err (ValueError "Number of samples must be non-negative.")
  else
    let div := (num - 1)%Z in
    let delta := fsub stop start in
    let y := map of_int (arange num) in
    let y :=
      if (0 <? div)%Z then
        let step := fdiv delta (of_int div) in
        if fis_zero step then
          map (fun v => fmul (fdiv v (of_int div)) delta) y
        else map (fun v => fmul v step) y
      else map (fun v => fmul v delta) y in
    let y := map (fun v => fadd v start) y in
    Ok (if (1 <? num)%Z then set_last y stop else y).

(** *** The user's location (lines 25-35) *)

(** The values the geolocation component puts in its dictionary. *)
Inductive pyval : Type :=
| PyNone
| PyFloat (x : f64).

(** A Python dictionary with string keys, as its items. *)
Definition pydict : Type := list (string * pyval).

Fixpoint dict_lookup (key : string) (dict : pydict) : option pyval :=
  match dict with
  | [] => None
  | (k', v) :: t => if String.eqb key k' then Some v else dict_lookup key t
  end.

(** The exceptions of the script: a missing key, or one of numpy's. *)
Inductive py_exn : Type :=
| KeyError (key : string)
| NumpyError (e : exn).

Inductive outcome (A : Type) : Type :=
| Finished (a : A)
| Raised (e : py_exn).

Arguments Finished {A} a.
Arguments Raised {A} e.

(** [dict.get(key)]: None for a missing key. *)
Definition dict_get (dict : pydict) (key : string) : pyval :=
  match dict_lookup key dict with
  | Some v => v
  | None => PyNone
  end.

(** [dict[key]]: KeyError for a missing key. *)
Definition dict_item (dict : pydict) (key : string) : outcome pyval :=
  match dict_lookup key dict with
  | Some v => Finished v
  | None => Raised (KeyError key)
  end.

(** The truth value of a Python value: None and 0.0 are false. *)
Definition truthy (v : pyval) : bool :=
  match v with
  | PyNone => false
  | PyFloat x => negb (fis_zero x)
  end.

(** The truth value of [location]: None and the empty dictionary are
    false. *)
Definition truthy_dict (location : option pydict) : bool :=
  match location with
  | None | Some [] => false
  | Some (_ :: _) => true
  end.

(** Lines 26-35: [user_lat] and [user_lon]. *)
Definition read_location (location : option pydict)
  : outcome (pyval * pyval) :=
  match location with
  | Some dict =>
      if truthy_dict location && truthy (dict_get dict "latitude") then
        match dict_item dict "latitude" with
        | Raised e => Raised e
        | Finished user_lat =>
            match dict_item dict "longitude" with
            | Raised e => Raised e
            | Finished user_lon => Finished (user_lat, user_lon)
            end
        end
      else Finished (PyNone, PyNone)
  | None => Finished (PyNone, PyNone)
  end.

(** *** Beam steering (lines 97-117) *)

(** Line 98: the base station. *)
Definition bs_lat : f64 := Fin (287041 / 10000).
Definition bs_lon : f64 := Fin (771025 / 10000).

(** Lines 103-106. *)
Definition bearing (user_lat user_lon : f64) : f64 :=
  let delta_lon := fsub user_lon bs_lon in
  let delta_lat := fsub user_lat bs_lat in
  let angle_rad := np_arctan2 delta_lon delta_lat in
  np_degrees angle_rad.

(** Lines 97-117: [final_theta]. *)
Definition beam_steering (user_lat user_lon : pyval) : f64 :=
  match user_lat, user_lon with
  | PyFloat lat, PyFloat lon => fold_bearing (bearing lat lon)
  | _, _ => Fin 0
  end.

(** *** The map (lines 119-123) *)

Record map_row : Type := MapRow { lat : f64; lon : f64; type : string }.

Definition map_data (user_lat user_lon : pyval) : list map_row :=
  MapRow bs_lat bs_lon "Base Station" ::
  match user_lat, user_lon with
  | PyFloat lat, PyFloat lon => [MapRow lat lon "Live User"]
  | _, _ => []
  end.

(** *** Performance metrics (lines 155-162) *)

Definition snr_linear (snr_input : Z) : f64 :=
  pow10 (fdiv (of_int snr_input) (of_int 10)).

Definition snr_effective (snr_input Nt Nr : Z) : f64 :=
  fmul (fmul (snr_linear snr_input) (of_int Nt)) (of_int Nr).

Definition capacity (snr_input Nt Nr : Z) : f64 :=
  flog2 (fadd (Fin 1) (snr_effective snr_input Nt Nr)).

(** Line 161: the effective SNR in dB. *)
Definition effective_snr_dB (snr_input Nt Nr : Z) : f64 :=
  fmul (Fin 10) (flog10 (snr_effective snr_input Nt Nr)).

(** *** The script *)

(** What a run of the script computes and shows. *)
Record script_state : Type := ScriptState {
  final_theta : f64;
  map_rows : list map_row;
  theta : list f64;
  resp_mimo : list f64;
  resp_ref : list f64;
  shown_snr_dB : f64;
  shown_capacity : f64
}.

Definition lift_result {A : Type} (m : result A) : outcome A :=
  match m with
  | Ok a => Finished a
  | Err e => Raised (NumpyError e)
  end.

Definition and_then {A B : Type} (m : outcome A) (f : A -> outcome B)
  : outcome B :=
  match m with
  | Finished a => f a
  | Raised e => Raised e
  end.

(** The script from the location read to the metrics, with the values of
    the geolocation component and of the sidebar widgets as arguments. *)
Definition demomimo (location : option pydict) (Nt Nr snr_input : Z)
  (window_type : string) : outcome script_state :=
  and_then (read_location location) (fun user =>
  let final_theta := beam_steering (fst user) (snd user) in
  let map_rows := map_data (fst user) (snd user) in
  and_then (lift_result (np_linspace (Fin (-90)) (Fin 90) 500)) (fun theta =>
  and_then (lift_result
              (mimo_array_response Nt Nr final_theta theta window_type))
           (fun resp_mimo =>
  and_then (lift_result
              (mimo_array_response 8 4 final_theta theta window_type))
           (fun resp_ref =>
  Finished (ScriptState final_theta map_rows theta resp_mimo resp_ref
                     (effective_snr_dB snr_input Nt Nr)
                     (capacity snr_input Nt Nr)))))).

(** * Counterparts over the reals

    The definitions below restate the computation for runs without special
    values, over real and complex numbers, and name the predicates the
    properties use. *)

Definition recognized_cosine (window_type : string) : Prop :=
  window_type = "Hamming"%string \/ window_type = "Hanning"%string \/
  window_type = "Blackman"%string.

(** The result of the call once both windows are built. *)
Definition response_of (win_tx win_rx : list f64) (Nt Nr : Z)
  (theta_user : f64) (theta : list f64) : list f64 :=
  let win_tx := normalize win_tx in
  let win_rx := normalize win_rx in
  let H := channel (steering_vector win_rx Nr theta_user)
                   (steering_vector win_tx Nt theta_user) in
  map (gain win_tx win_rx Nt Nr H) theta.

(** Complex numbers with real components, for the runs without special
    values. *)
Definition C : Type := (R * R)%type.

Definition Cadd (a b : C) : C := (fst a + fst b, snd a + snd b).
Definition Cmul (a b : C) : C :=
  (fst a * fst b - snd a * snd b, fst a * snd b + snd a * fst b).
Definition Cconj (a : C) : C := (fst a, - snd a).
Definition Cmod (a : C) : R := sqrt (fst a * fst a + snd a * snd a).
Definition Csum (l : list C) : C := fold_right Cadd (0, 0) l.
Definition Rsum (l : list R) : R := fold_right Rplus 0 l.

Definition lift (z : C) : complex := Cx (Fin (fst z)) (Fin (snd z)).

(** The phase 2*pi*0.5*n*sin(radians(theta)) of element [n]. *)
Definition phase_angle (n : Z) (theta : R) : R :=
  2 * PI * (1 / 2) * IZR n * sin (theta * (PI / 180)).

(** Element [n] of a steering vector with weight [w]:
    w * exp(i * phase). *)
Definition steer (theta : R) (p : R * Z) : C :=
  (fst p * cos (phase_angle (snd p) theta),
   fst p * sin (phase_angle (snd p) theta)).

Definition steering (win : list R) (N : Z) (theta : R) : list C :=
  map (steer theta) (combine win (arange N)).

Definition channelR (rx_vec tx_vec : list C) : list (list C) :=
  map (fun x => map (fun y => Cmul x (Cconj y)) tx_vec) rx_vec.

Definition correlationR (H_steer H : list (list C)) : R :=
  Cmod (Csum (concat (zip_with (zip_with (fun a b => Cmul a (Cconj b)))
                               H_steer H))).

Definition gainR (win_tx win_rx : list R) (Nt Nr : Z) (H : list (list C))
  (ang : R) : R :=
  correlationR (channelR (steering win_rx Nr ang) (steering win_tx Nt ang)) H.

(** The product of the two channel entries at row [p], column [q]. *)
Definition term (ang theta_user : R) (p q : R * Z) : C :=
  Cmul (Cmul (steer ang p) (Cconj (steer ang q)))
       (Cconj (Cmul (steer theta_user p) (Cconj (steer theta_user q)))).

Definition terms (win_tx win_rx : list R) (Nt Nr : Z) (ang theta_user : R)
  : list C :=
  concat (map (fun p => map (term ang theta_user p)
                            (combine win_tx (arange Nt)))
              (combine win_rx (arange Nr))).

Definition sumsq (r : list R) : R := Rsum (map (fun x => x * x) r).

Definition cosine_coefs (coef : R -> R) (M : Z) : list R :=
  if (M <? 1)%Z then []
  else if (M =? 1)%Z then [1]
  else map (fun n => coef (2 * PI * IZR n / IZR (M - 1))) (arange M).

(** The raw coefficients of the selected window, as reals. *)
Definition raw_coefs (window_type : string) (N : Z) : list R :=
  if String.eqb window_type "Hamming" then cosine_coefs hamming_coef N
  else if String.eqb window_type "Hanning" then cosine_coefs hanning_coef N
  else if String.eqb window_type "Blackman" then cosine_coefs blackman_coef N
  else repeat 1 (Z.to_nat N).

(** The coefficients divided by their Euclidean norm. *)
Definition unit_coefs (r : list R) : list R :=
  map (fun x => x / sqrt (sumsq r)) r.

(** The window kinds and lengths whose raw coefficients all vanish in exact
    arithmetic: the two end points of a Hanning or Blackman window.  (In
    doubles the end points of [np.blackman] are of the order of 1e-17, not
    zero; those of [np.hanning] are exactly zero.) *)
Definition degenerate (window_type : string) (N : Z) : bool :=
  (N =? 2)%Z &&
  (String.eqb window_type "Hanning" || String.eqb window_type "Blackman").

(** The gains of the sweep, for finite normalized windows. *)
Definition gains (win_tx win_rx : list R) (Nt Nr : Z) (theta_user : R)
  (angles : list R) : list R :=
  map (fun ang => Cmod (Csum (terms win_tx win_rx Nt Nr ang theta_user)))
      angles.

(** A value at or below 0 dB: -infinity or a non-positive real. *)
Definition at_most_0dB (g : f64) : Prop :=
  g = NInf \/ exists y, g = Fin y /\ y <= 0.

Definition cnan : complex := Cx NaN NaN.

(** What [np.abs] of a complex number can be. *)
Definition modulus_like (g : f64) : Prop :=
  g = NaN \/ g = PInf \/ exists x, g = Fin x /\ 0 <= x.

(** The product, for one antenna, of its steering element at [ang] and the
    conjugate of its element at [theta_user]: a term is the product of one
    such factor of the receive array and the conjugate of one of the
    transmit array. *)
Definition beat (ang theta_user : R) (p : R * Z) : C :=
  Cmul (steer ang p) (Cconj (steer theta_user p)).



(** * Properties *)

(** ** Window selection and errors *)

Lemma raw_window_cosine (w : string) (N : Z) :
  recognized_cosine w -> exists win, raw_window w N = Ok win.
Proof.
  intros [-> | [-> | ->]]; unfold raw_window; simpl; eauto.
Qed.

Lemma raw_window_fallback (w : string) (N : Z) :
  ~ recognized_cosine w -> raw_window w N = np_ones N.
Proof.
  intros Hw. unfold raw_window.
  destruct (String.eqb_spec w "Hamming") as [E | _].
  { exfalso; apply Hw; left; exact E. }
  destruct (String.eqb_spec w "Hanning") as [E | _].
  { exfalso; apply Hw; right; left; exact E. }
  destruct (String.eqb_spec w "Blackman") as [E | _].
  { exfalso; apply Hw; right; right; exact E. }
  reflexivity.
Qed.

Lemma recognized_cosine_dec (w : string) :
  {recognized_cosine w} + {~ recognized_cosine w}.
Proof.
  unfold recognized_cosine.
  destruct (string_dec w "Hamming"); [left; tauto |].
  destruct (string_dec w "Hanning"); [left; tauto |].
  destruct (string_dec w "Blackman"); [left; tauto |].
  right; tauto.
Qed.

Lemma np_ones_ok (N : Z) :
  (0 <= N)%Z -> np_ones N = Ok (repeat (Fin 1) (Z.to_nat N)).
Proof.
  intros H. unfold np_ones.
  destruct (Z.ltb_spec N 0); [lia | reflexivity].
Qed.

Lemma np_ones_raises (N : Z) : raises (np_ones N) <-> (N < 0)%Z.
Proof.
  unfold np_ones, raises.
  destruct (Z.ltb_spec N 0); split; intros H'; try lia.
  - eauto.
  - destruct H' as [e He]; discriminate.
Qed.

Lemma raw_window_raises (w : string) (N : Z) :
  raises (raw_window w N) <-> ~ recognized_cosine w /\ (N < 0)%Z.
Proof.
  destruct (recognized_cosine_dec w) as [Hw | Hw].
  - destruct (raw_window_cosine w N Hw) as [win E]. rewrite E.
    split; [intros [e He]; discriminate | tauto].
  - rewrite (raw_window_fallback w N Hw), np_ones_raises. tauto.
Qed.

Lemma np_max_raises (l : list f64) : raises (np_max l) <-> l = [].
Proof.
  destruct l; simpl; split; intros H; try discriminate; try reflexivity.
  - eexists; reflexivity.
  - destruct H as [e He]; discriminate.
Qed.

Lemma raises_not_ok {A : Type} (m : result A) :
  ~ raises m -> exists a, m = Ok a.
Proof.
  destruct m as [a | e]; intros H; [eauto | exfalso; apply H; exists e; reflexivity].
Qed.

Lemma mimo_array_response_ok (Nt Nr : Z) (theta_user : f64)
  (theta : list f64) (w : string) (win_tx win_rx : list f64) (m : f64) :
  raw_window w Nt = Ok win_tx ->
  raw_window w Nr = Ok win_rx ->
  np_max (response_of win_tx win_rx Nt Nr theta_user theta) = Ok m ->
  mimo_array_response Nt Nr theta_user theta w =
  Ok (map (to_dB m) (response_of win_tx win_rx Nt Nr theta_user theta)).
Proof.
  intros Ht Hr Hm. unfold mimo_array_response.
  rewrite Ht, Hr. cbn [bind].
  unfold response_of in Hm. rewrite Hm. reflexivity.
Qed.

Lemma mimo_array_response_raises (Nt Nr : Z) (theta_user : f64)
  (theta : list f64) (w : string) :
  raises (mimo_array_response Nt Nr theta_user theta w) <->
  theta = [] \/ (~ recognized_cosine w /\ ((Nt < 0)%Z \/ (Nr < 0)%Z)).
Proof.
  unfold mimo_array_response.
  destruct (raw_window w Nt) as [wt | e] eqn:Et.
  - destruct (raw_window w Nr) as [wr | e] eqn:Er.
    + cbn [bind].
      assert (Hnt : ~ (~ recognized_cosine w /\ (Nt < 0)%Z)).
      { rewrite <- raw_window_raises, Et. intros [e He]; discriminate. }
      assert (Hnr : ~ (~ recognized_cosine w /\ (Nr < 0)%Z)).
      { rewrite <- raw_window_raises, Er. intros [e He]; discriminate. }
      destruct theta as [| a t]; cbn.
      * split; [left; reflexivity | intros _; eexists; reflexivity].
      * split.
        -- intros [e He]; discriminate.
        -- intros [H | [H1 [H2 | H2]]]; [discriminate | tauto | tauto].
    + cbn [bind].
      assert (Hr : raises (raw_window w Nr)) by (rewrite Er; eexists; reflexivity).
      apply raw_window_raises in Hr.
      split; [intros _; right; tauto | intros _; eexists; reflexivity].
  - cbn [bind].
    assert (Ht : raises (raw_window w Nt)) by (rewrite Et; eexists; reflexivity).
    apply raw_window_raises in Ht.
    split; [intros _; right; tauto | intros _; eexists; reflexivity].
Qed.

Lemma mimo_array_response_length (Nt Nr : Z) (theta_user : f64)
  (theta : list f64) (w : string) (out : list f64) :
  mimo_array_response Nt Nr theta_user theta w = Ok out ->
  List.length out = List.length theta.
Proof.
  unfold mimo_array_response.
  destruct (raw_window w Nt) as [wt | e]; [| discriminate].
  destruct (raw_window w Nr) as [wr | e]; [| discriminate].
  cbn [bind].
  destruct (np_max _) as [m | e]; [| discriminate].
  cbn [bind]. intros E; injection E as <-.
  now rewrite !length_map.
Qed.

(** ** Finite values: the computation in the complex plane *)

Lemma Cx_Fin_eq (a b c e : R) :
  a = c -> b = e -> Cx (Fin a) (Fin b) = Cx (Fin c) (Fin e).
Proof. intros -> ->; reflexivity. Qed.

Lemma cadd_lift (a b : C) : cadd (lift a) (lift b) = lift (Cadd a b).
Proof. reflexivity. Qed.

Lemma cmul_lift (a b : C) : cmul (lift a) (lift b) = lift (Cmul a b).
Proof. reflexivity. Qed.

Lemma cconj_lift (a : C) : cconj (lift a) = lift (Cconj a).
Proof. reflexivity. Qed.

Lemma cabs_lift (a : C) : cabs (lift a) = Fin (Cmod a).
Proof. reflexivity. Qed.

Lemma csum_lift (l : list C) : csum (map lift l) = lift (Csum l).
Proof.
  induction l as [| z l IH]; [reflexivity |].
  cbn [map csum fold_right]. fold (csum (map lift l)). rewrite IH.
  apply cadd_lift.
Qed.

Lemma fsum_Fin (l : list R) : fsum (map Fin l) = Fin (Rsum l).
Proof.
  induction l as [| x l IH]; [reflexivity |].
  cbn [map fsum fold_right]. fold (fsum (map Fin l)). rewrite IH.
  reflexivity.
Qed.

(** *** Lists *)

Lemma zip_with_combine {A B D : Type} (f : A -> B -> D) (l : list A)
  (l' : list B) :
  zip_with f l l' = map (fun p => f (fst p) (snd p)) (combine l l').
Proof.
  revert l'; induction l as [| x l IH]; intros [| y l']; cbn; try reflexivity.
  now rewrite IH.
Qed.

Lemma zip_with_map_same {A B D E : Type} (f : B -> D -> E) (g : A -> B)
  (h : A -> D) (l : list A) :
  zip_with f (map g l) (map h l) = map (fun x => f (g x) (h x)) l.
Proof.
  induction l as [| x l IH]; cbn; [reflexivity | now rewrite IH].
Qed.

Lemma combine_map_l {A B D : Type} (g : A -> B) (l : list A) (l' : list D) :
  combine (map g l) l' = map (fun p => (g (fst p), snd p)) (combine l l').
Proof.
  revert l'; induction l as [| x l IH]; intros [| y l']; cbn; try reflexivity.
  now rewrite IH.
Qed.

Lemma concat_map_map {A B : Type} (f : A -> B) (M : list (list A)) :
  concat (map (map f) M) = map f (concat M).
Proof. symmetry. apply concat_map. Qed.


Lemma length_zip_with {A B D : Type} (f : A -> B -> D) (l : list A)
  (l' : list B) :
  List.length l = List.length l' ->
  List.length (zip_with f l l') = List.length l.
Proof.
  revert l'. induction l as [| x l IH]; intros [| y l'] H; cbn in *;
    try discriminate; try reflexivity.
  f_equal. apply IH. now injection H.
Qed.

Lemma length_arange (N : Z) : List.length (arange N) = Z.to_nat N.
Proof. unfold arange. now rewrite length_map, length_seq. Qed.

(** *** Steering vectors *)

Lemma phase_finite (n : Z) (theta : R) :
  phase n (Fin theta) = lift (0, phase_angle n theta).
Proof.
  unfold phase, phase_angle, j, k, d, of_real, of_int, np_radians.
  cbn [fmul fsin]. unfold cmul, lift. cbn [re im fst snd fmul fsub fadd fneg].
  apply Cx_Fin_eq; ring.
Qed.

Lemma cexp_phase_finite (n : Z) (theta : R) :
  cexp (phase n (Fin theta)) =
  lift (cos (phase_angle n theta), sin (phase_angle n theta)).
Proof.
  rewrite phase_finite. unfold cexp, lift. cbn [re im fst snd fexp fcos fsin fmul].
  rewrite exp_0. apply Cx_Fin_eq; ring.
Qed.

Lemma steering_vector_finite (win : list R) (N : Z) (theta : R) :
  steering_vector (map Fin win) N (Fin theta) =
  map lift (steering win N theta).
Proof.
  unfold steering_vector, steering.
  rewrite zip_with_combine, combine_map_l, map_map.
  generalize (arange N) as ns. intros ns.
  rewrite map_map.
  revert ns. induction win as [| w win IH]; intros [| n ns];
    cbn [combine map]; try reflexivity.
  rewrite IH. f_equal.
  cbn [fst snd]. rewrite cexp_phase_finite.
  unfold of_real, cmul, steer, lift. cbn [re im fst snd fmul fsub fadd fneg].
  apply Cx_Fin_eq; ring.
Qed.

(** *** Channel matrices and the correlation gain *)

Lemma zip_with_map_map {A A' B B' D : Type} (f : B -> B' -> D) (g : A -> B)
  (h : A' -> B') (l : list A) (l' : list A') :
  zip_with f (map g l) (map h l') = zip_with (fun a b => f (g a) (h b)) l l'.
Proof.
  revert l'; induction l as [| x l IH]; intros [| y l']; cbn; try reflexivity.
  now rewrite IH.
Qed.

Lemma map_zip_with {A B D E : Type} (g : D -> E) (f : A -> B -> D)
  (l : list A) (l' : list B) :
  map g (zip_with f l l') = zip_with (fun a b => g (f a b)) l l'.
Proof.
  revert l'; induction l as [| x l IH]; intros [| y l']; cbn; try reflexivity.
  now rewrite IH.
Qed.

Lemma zip_with_ext {A B D : Type} (f g : A -> B -> D) (l : list A)
  (l' : list B) :
  (forall a b, f a b = g a b) -> zip_with f l l' = zip_with g l l'.
Proof.
  intros E. revert l'; induction l as [| x l IH]; intros [| y l']; cbn;
    try reflexivity.
  now rewrite E, IH.
Qed.

Lemma channel_finite (rx_vec tx_vec : list C) :
  channel (map lift rx_vec) (map lift tx_vec) =
  map (map lift) (channelR rx_vec tx_vec).
Proof.
  unfold channel, channelR, np_outer. rewrite !map_map.
  apply map_ext; intros x. rewrite !map_map.
  apply map_ext; intros y. reflexivity.
Qed.

Lemma correlation_finite (A B : list (list C)) :
  correlation (map (map lift) A) (map (map lift) B) = Fin (correlationR A B).
Proof.
  unfold correlation, correlationR, np_sum.
  rewrite <- cabs_lift, <- csum_lift, <- concat_map_map.
  do 3 f_equal.
  rewrite map_map, zip_with_map_map, map_zip_with.
  apply zip_with_ext; intros a b.
  rewrite map_map, zip_with_map_map, map_zip_with.
  apply zip_with_ext; intros x y. reflexivity.
Qed.

Lemma gain_finite (win_tx win_rx : list R) (Nt Nr : Z) (H : list (list C))
  (ang : R) :
  gain (map Fin win_tx) (map Fin win_rx) Nt Nr (map (map lift) H) (Fin ang) =
  Fin (gainR win_tx win_rx Nt Nr H ang).
Proof.
  unfold gain, gainR.
  now rewrite !steering_vector_finite, channel_finite, correlation_finite.
Qed.

Lemma gainR_terms (win_tx win_rx : list R) (Nt Nr : Z) (ang theta_user : R) :
  gainR win_tx win_rx Nt Nr
        (channelR (steering win_rx Nr theta_user)
                  (steering win_tx Nt theta_user)) ang =
  Cmod (Csum (terms win_tx win_rx Nt Nr ang theta_user)).
Proof.
  unfold gainR, correlationR, terms, channelR, steering.
  do 3 f_equal.
  rewrite !map_map, zip_with_map_same.
  apply map_ext; intros p.
  rewrite !map_map, zip_with_map_same.
  apply map_ext; intros q. reflexivity.
Qed.

(** *** Moduli *)

Lemma Cmod_nonneg (a : C) : 0 <= Cmod a.
Proof. apply sqrt_pos. Qed.

Lemma Cmod_sqr (a : C) : Cmod a * Cmod a = fst a * fst a + snd a * snd a.
Proof. unfold Cmod. apply sqrt_sqrt. nra. Qed.

Lemma Cmod_mul (a b : C) : Cmod (Cmul a b) = Cmod a * Cmod b.
Proof.
  unfold Cmod, Cmul. cbn [fst snd].
  rewrite <- sqrt_mult by nra. f_equal. ring.
Qed.

Lemma Cmod_conj (a : C) : Cmod (Cconj a) = Cmod a.
Proof. unfold Cmod, Cconj. cbn [fst snd]. f_equal. ring. Qed.

Lemma Cmod_real (x : R) : 0 <= x -> Cmod (x, 0) = x.
Proof.
  intros Hx. unfold Cmod. cbn [fst snd].
  replace (x * x + 0 * 0) with (x * x) by ring. now apply sqrt_square.
Qed.

Lemma Cmod_triangle (a b : C) : Cmod (Cadd a b) <= Cmod a + Cmod b.
Proof.
  assert (Ha := Cmod_nonneg a). assert (Hb := Cmod_nonneg b).
  assert (Hab := Cmod_nonneg (Cadd a b)).
  assert (Sa := Cmod_sqr a). assert (Sb := Cmod_sqr b).
  assert (Sab := Cmod_sqr (Cadd a b)).
  destruct a as [a1 a2], b as [b1 b2]. unfold Cadd in *. cbn [fst snd] in *.
  set (s := Cmod (a1, a2)) in *. set (t := Cmod (b1, b2)) in *.
  set (u := Cmod (a1 + b1, a2 + b2)) in *.
  (* Cauchy-Schwarz: a.b <= s t *)
  assert (CS : a1 * b1 + a2 * b2 <= s * t).
  { destruct (Rle_dec (a1 * b1 + a2 * b2) 0) as [Hn | Hp].
    - assert (0 <= s * t) by (apply Rmult_le_pos; assumption). lra.
    - apply Rnot_le_lt in Hp.
      apply Rsqr_incr_0_var; [| apply Rmult_le_pos; assumption].
      unfold Rsqr.
      replace (s * t * (s * t)) with ((s * s) * (t * t)) by ring.
      rewrite Sa, Sb.
      assert (0 <= (a1 * b2 - a2 * b1) * (a1 * b2 - a2 * b1))
        by apply Rle_0_sqr.
      nra. }
  apply Rsqr_incr_0_var; [| lra].
  unfold Rsqr. nra.
Qed.

Lemma Cmod_Csum_le (l : list C) : Cmod (Csum l) <= Rsum (map Cmod l).
Proof.
  induction l as [| z l IH]; cbn [Csum Rsum map fold_right].
  - unfold Cmod. cbn [fst snd].
    replace (0 * 0 + 0 * 0) with 0 by ring. rewrite sqrt_0. lra.
  - fold (Csum l). fold (Rsum (map Cmod l)).
    eapply Rle_trans; [apply Cmod_triangle |]. lra.
Qed.

(** A sum of non-negative reals is its own modulus. *)
Lemma Cmod_Csum_real (l : list C) :
  Forall (fun z => 0 <= fst z /\ snd z = 0) l ->
  Csum l = (Rsum (map Cmod l), 0).
Proof.
  induction 1 as [| z l [Hz1 Hz2] _ IH]; [reflexivity |].
  cbn [Csum Rsum map fold_right]. fold (Csum l). fold (Rsum (map Cmod l)).
  rewrite IH. destruct z as [x y]. cbn [fst snd] in *. subst y.
  rewrite (Cmod_real x Hz1). unfold Cadd. cbn [fst snd]. f_equal. ring.
Qed.

Lemma Rsum_nonneg (l : list R) : Forall (fun x => 0 <= x) l -> 0 <= Rsum l.
Proof.
  induction 1 as [| x l Hx _ IH]; cbn [Rsum fold_right]; [lra |].
  fold (Rsum l). lra.
Qed.

Lemma Rsum_Cmod_nonneg (l : list C) : 0 <= Rsum (map Cmod l).
Proof.
  apply Rsum_nonneg, Forall_forall. intros x Hx.
  apply in_map_iff in Hx as [z [<- _]]. apply Cmod_nonneg.
Qed.

Lemma Cmod_steer (theta : R) (p : R * Z) : Cmod (steer theta p) = Rabs (fst p).
Proof.
  unfold Cmod, steer. cbn [fst snd].
  rewrite <- sqrt_Rsqr_abs. f_equal. unfold Rsqr.
  assert (H := sin2_cos2 (phase_angle (snd p) theta)). unfold Rsqr in H.
  nra.
Qed.

Lemma Cmod_term (ang theta_user : R) (p q : R * Z) :
  Cmod (term ang theta_user p q) = (fst p * fst q) * (fst p * fst q).
Proof.
  unfold term.
  rewrite !Cmod_mul, !Cmod_conj, !Cmod_mul, !Cmod_conj, !Cmod_steer.
  assert (Hp : Rabs (fst p) * Rabs (fst p) = fst p * fst p).
  { rewrite <- Rabs_mult. apply Rabs_right. nra. }
  assert (Hq : Rabs (fst q) * Rabs (fst q) = fst q * fst q).
  { rewrite <- Rabs_mult. apply Rabs_right. nra. }
  nra.
Qed.

(** At the steering angle every term is a non-negative real. *)
Lemma term_diag (theta : R) (p q : R * Z) :
  0 <= fst (term theta theta p q) /\ snd (term theta theta p q) = 0.
Proof.
  unfold term. set (z := Cmul (steer theta p) (Cconj (steer theta q))).
  unfold Cmul, Cconj. cbn [fst snd]. split; nra.
Qed.

Lemma terms_diag (win_tx win_rx : list R) (Nt Nr : Z) (theta : R) :
  Forall (fun z => 0 <= fst z /\ snd z = 0)
         (terms win_tx win_rx Nt Nr theta theta).
Proof.
  unfold terms. apply Forall_concat, Forall_map, Forall_forall. intros p _.
  apply Forall_map, Forall_forall. intros q _. apply term_diag.
Qed.

Lemma terms_Cmod (win_tx win_rx : list R) (Nt Nr : Z) (a b u : R) :
  map Cmod (terms win_tx win_rx Nt Nr a u) =
  map Cmod (terms win_tx win_rx Nt Nr b u).
Proof.
  unfold terms. rewrite <- !concat_map_map, !map_map. f_equal.
  apply map_ext; intros p. rewrite !map_map.
  apply map_ext; intros q. now rewrite !Cmod_term.
Qed.

(** The matched-filter bound: the gain at any angle is at most the gain at
    the steering angle. *)
Lemma gainR_peak (win_tx win_rx : list R) (Nt Nr : Z) (ang theta_user : R) :
  Cmod (Csum (terms win_tx win_rx Nt Nr ang theta_user)) <=
  Cmod (Csum (terms win_tx win_rx Nt Nr theta_user theta_user)).
Proof.
  rewrite (Cmod_Csum_real _ (terms_diag win_tx win_rx Nt Nr theta_user)).
  rewrite Cmod_real by apply Rsum_Cmod_nonneg.
  rewrite (terms_Cmod _ _ _ _ theta_user ang theta_user).
  apply Cmod_Csum_le.
Qed.

(** *** The gain at the steering angle *)

Lemma Rsum_cons (x : R) (l : list R) : Rsum (x :: l) = x + Rsum l.
Proof. reflexivity. Qed.

Lemma sumsq_cons (x : R) (l : list R) : sumsq (x :: l) = x * x + sumsq l.
Proof. reflexivity. Qed.

Lemma Rsum_app (l l' : list R) : Rsum (l ++ l') = Rsum l + Rsum l'.
Proof.
  induction l as [| x l IH]; cbn [app].
  - change (Rsum []) with 0. lra.
  - rewrite !Rsum_cons, IH. lra.
Qed.

Lemma Rsum_row (ang theta_user : R) (p : R * Z) (row : list (R * Z)) :
  Rsum (map Cmod (map (term ang theta_user p) row)) =
  fst p * fst p * sumsq (map fst row).
Proof.
  unfold sumsq.
  induction row as [| q row IH]; cbn [map Rsum fold_right]; [ring |].
  fold (Rsum (map Cmod (map (term ang theta_user p) row))).
  fold (Rsum (map (fun x => x * x) (map fst row))).
  rewrite IH, Cmod_term. ring.
Qed.

Lemma Rsum_terms (win_tx win_rx : list R) (Nt Nr : Z) (ang theta_user : R) :
  Rsum (map Cmod (terms win_tx win_rx Nt Nr ang theta_user)) =
  sumsq (map fst (combine win_rx (arange Nr))) *
  sumsq (map fst (combine win_tx (arange Nt))).
Proof.
  unfold terms. generalize (combine win_rx (arange Nr)) as rows.
  induction rows as [| p rows IH]; cbn [map concat].
  - unfold sumsq. cbn. ring.
  - rewrite map_app, Rsum_app, IH, Rsum_row.
    unfold sumsq. cbn [map Rsum fold_right].
    fold (Rsum (map (fun x => x * x) (map fst rows))). ring.
Qed.

Lemma map_fst_combine {A B : Type} (l : list A) (l' : list B) :
  List.length l = List.length l' -> map fst (combine l l') = l.
Proof.
  revert l'; induction l as [| x l IH]; intros [| y l'] E; cbn in *;
    try discriminate; try reflexivity.
  f_equal. apply IH. now injection E.
Qed.

Lemma gainR_at_steering (win_tx win_rx : list R) (Nt Nr : Z) (theta : R) :
  List.length win_tx = Z.to_nat Nt ->
  List.length win_rx = Z.to_nat Nr ->
  Cmod (Csum (terms win_tx win_rx Nt Nr theta theta)) =
  sumsq win_rx * sumsq win_tx.
Proof.
  intros Lt Lr.
  rewrite (Cmod_Csum_real _ (terms_diag win_tx win_rx Nt Nr theta)).
  rewrite Cmod_real by apply Rsum_Cmod_nonneg.
  rewrite Rsum_terms, !map_fst_combine; try reflexivity;
    now rewrite length_arange.
Qed.

(** ** Windows *)

Lemma cosine_window_finite (coef : R -> R) (M : Z) :
  cosine_window coef M = map Fin (cosine_coefs coef M).
Proof.
  unfold cosine_window, cosine_coefs.
  destruct (M <? 1)%Z; [reflexivity |].
  destruct (M =? 1)%Z; [reflexivity |].
  now rewrite map_map.
Qed.

Lemma length_cosine_coefs (coef : R -> R) (M : Z) :
  List.length (cosine_coefs coef M) = Z.to_nat M.
Proof.
  unfold cosine_coefs.
  destruct (Z.ltb_spec M 1); [cbn; lia |].
  destruct (Z.eqb_spec M 1); [subst; reflexivity |].
  now rewrite length_map, length_arange.
Qed.

Lemma raw_window_finite (w : string) (N : Z) (win : list f64) :
  raw_window w N = Ok win -> win = map Fin (raw_coefs w N).
Proof.
  unfold raw_window, raw_coefs, np_hamming, np_hanning, np_blackman, np_ones.
  destruct (String.eqb w "Hamming").
  { intros E; injection E as <-. apply cosine_window_finite. }
  destruct (String.eqb w "Hanning").
  { intros E; injection E as <-. apply cosine_window_finite. }
  destruct (String.eqb w "Blackman").
  { intros E; injection E as <-. apply cosine_window_finite. }
  destruct (N <? 0)%Z; [discriminate |].
  intros E; injection E as <-.
  induction (Z.to_nat N) as [| n IH]; cbn; [reflexivity | now rewrite IH].
Qed.

Lemma length_raw_coefs (w : string) (N : Z) :
  List.length (raw_coefs w N) = Z.to_nat N.
Proof.
  unfold raw_coefs.
  destruct (String.eqb w "Hamming"); [apply length_cosine_coefs |].
  destruct (String.eqb w "Hanning"); [apply length_cosine_coefs |].
  destruct (String.eqb w "Blackman"); [apply length_cosine_coefs |].
  apply repeat_length.
Qed.

Lemma raw_window_ok (w : string) (N : Z) :
  (0 <= N)%Z -> raw_window w N = Ok (map Fin (raw_coefs w N)).
Proof.
  intros HN.
  destruct (raw_window w N) as [win | e] eqn:E.
  - f_equal. now apply raw_window_finite.
  - assert (Hr : raises (raw_window w N)) by (rewrite E; eexists; reflexivity).
    apply raw_window_raises in Hr. lia.
Qed.

Lemma sumsq_nonneg (r : list R) : 0 <= sumsq r.
Proof.
  unfold sumsq. apply Rsum_nonneg, Forall_map, Forall_forall.
  intros x _. nra.
Qed.

Lemma sumsq_pos (r : list R) (x : R) : In x r -> x <> 0 -> 0 < sumsq r.
Proof.
  intros Hin Hx. induction r as [| y r IH]; [contradiction |].
  unfold sumsq. cbn [map Rsum fold_right].
  fold (Rsum (map (fun x => x * x) r)). fold (sumsq r).
  assert (H0 := sumsq_nonneg r).
  destruct Hin as [-> | Hin].
  - assert (0 < x * x) by nra. lra.
  - specialize (IH Hin). nra.
Qed.

Lemma sumsq_zero (r : list R) : sumsq r = 0 -> Forall (fun x => x = 0) r.
Proof.
  intros H. apply Forall_forall. intros x Hin.
  destruct (Req_dec_T x 0) as [E | NE]; [exact E |].
  assert (Hp := sumsq_pos r x Hin NE). lra.
Qed.

Lemma linalg_norm_finite (r : list R) :
  linalg_norm (map Fin r) = Fin (sqrt (sumsq r)).
Proof.
  unfold linalg_norm. rewrite map_map.
  change (map (fun x => fmul (Fin x) (Fin x)) r)
    with (map (fun x => Fin (x * x)) r).
  rewrite <- (map_map (fun x => x * x) Fin), fsum_Fin. fold (sumsq r).
  unfold fsqrt. destruct (Rlt_dec (sumsq r) 0) as [H | _]; [| reflexivity].
  assert (H0 := sumsq_nonneg r). lra.
Qed.

Lemma normalize_finite (r : list R) :
  sumsq r <> 0 -> normalize (map Fin r) = map Fin (unit_coefs r).
Proof.
  intros H. unfold normalize, unit_coefs.
  rewrite linalg_norm_finite, !map_map. apply map_ext. intros x.
  unfold fdiv. destruct (Req_dec_T (sqrt (sumsq r)) 0) as [E | _];
    [| reflexivity].
  apply sqrt_eq_0 in E; [contradiction | apply sumsq_nonneg].
Qed.

Lemma normalize_zero (r : list R) :
  sumsq r = 0 -> normalize (map Fin r) = map (fun _ => NaN) r.
Proof.
  intros H. unfold normalize.
  rewrite linalg_norm_finite, H, sqrt_0, map_map.
  apply map_ext_in. intros x Hin.
  assert (Hx : x = 0).
  { apply sumsq_zero in H. rewrite Forall_forall in H. now apply H. }
  subst x. unfold fdiv.
  destruct (Req_dec_T 0 0) as [_ | NE]; [reflexivity | contradiction].
Qed.

Lemma sumsq_unit_coefs (r : list R) : sumsq r <> 0 -> sumsq (unit_coefs r) = 1.
Proof.
  intros H.
  assert (H0 := sumsq_nonneg r).
  assert (Hs : sqrt (sumsq r) * sqrt (sumsq r) = sumsq r)
    by (apply sqrt_sqrt; lra).
  assert (Hn : sqrt (sumsq r) <> 0).
  { intros E. apply sqrt_eq_0 in E; lra. }
  unfold unit_coefs.
  remember (sqrt (sumsq r)) as s eqn:Es.
  assert (G : forall l, sumsq (map (fun x => x / s) l) = sumsq l / sumsq r).
  { induction l as [| x l IH]; cbn [map].
    - change (sumsq []) with 0. field. exact H.
    - rewrite !sumsq_cons, IH.
      replace (x / s * (x / s)) with (x * x / sumsq r)
        by (rewrite <- Hs; field; exact Hn).
      field. exact H. }
  rewrite G. now field.
Qed.

Lemma length_unit_coefs (r : list R) :
  List.length (unit_coefs r) = List.length r.
Proof. apply length_map. Qed.

(** *** Which windows have a non-zero norm *)

Lemma cos_lt_1 (x : R) : 0 < x -> x <= PI -> cos x < 1.
Proof.
  intros H0 H1.
  replace x with (2 * (x / 2)) by field.
  rewrite cos_2a_sin.
  assert (Hs : 0 < sin (x / 2)).
  { assert (HP := PI_RGT_0). apply sin_gt_0; lra. }
  nra.
Qed.

Lemma hamming_coef_pos (x : R) : 0 < hamming_coef x.
Proof. unfold hamming_coef. assert (H := COS_bound x). lra. Qed.

Lemma hanning_coef_pos (x : R) : cos x < 1 -> 0 < hanning_coef x.
Proof. unfold hanning_coef. lra. Qed.

Lemma blackman_coef_pos (x : R) : cos x < 1 -> 0 < blackman_coef x.
Proof.
  intros H. unfold blackman_coef. rewrite cos_2a_cos.
  assert (Hb := COS_bound x). nra.
Qed.

Lemma In_arange (n N : Z) : (0 <= n < N)%Z -> In n (arange N).
Proof.
  intros H. unfold arange. apply in_map_iff. exists (Z.to_nat n).
  split; [lia |]. apply in_seq. lia.
Qed.

Lemma cosine_coefs_pos (coef : R -> R) (M n : Z) :
  (2 <= M)%Z -> (0 <= n < M)%Z ->
  0 < coef (2 * PI * IZR n / IZR (M - 1)) ->
  0 < sumsq (cosine_coefs coef M).
Proof.
  intros HM Hn Hc. unfold cosine_coefs.
  destruct (Z.ltb_spec M 1); [lia |].
  destruct (Z.eqb_spec M 1); [lia |].
  apply sumsq_pos with (x := coef (2 * PI * IZR n / IZR (M - 1))); [| lra].
  apply in_map_iff. exists n. split; [reflexivity | now apply In_arange].
Qed.

Lemma cosine_coefs_one (coef : R -> R) : sumsq (cosine_coefs coef 1) = 1.
Proof. unfold cosine_coefs. cbn. unfold sumsq. cbn. ring. Qed.

(** The angle of the second coefficient of a window of three or more. *)
Lemma second_angle (M : Z) :
  (3 <= M)%Z -> cos (2 * PI * IZR 1 / IZR (M - 1)) < 1.
Proof.
  intros HM. assert (HP := PI_RGT_0).
  assert (H2 : 2 <= IZR (M - 1)) by (apply IZR_le; lia).
  apply cos_lt_1.
  - apply Rdiv_lt_0_compat; lra.
  - apply Rmult_le_reg_r with (r := IZR (M - 1)); [lra |].
    unfold Rdiv. rewrite Rmult_assoc, Rinv_l by lra. nra.
Qed.

Lemma hamming_sumsq_pos (M : Z) :
  (1 <= M)%Z -> 0 < sumsq (cosine_coefs hamming_coef M).
Proof.
  intros HM. destruct (Z.eq_dec M 1) as [-> | NE].
  - rewrite cosine_coefs_one. lra.
  - apply cosine_coefs_pos with (n := 0%Z); [lia | lia |].
    apply hamming_coef_pos.
Qed.

Lemma hanning_sumsq_pos (M : Z) :
  (1 <= M)%Z -> M <> 2%Z -> 0 < sumsq (cosine_coefs hanning_coef M).
Proof.
  intros HM H2. destruct (Z.eq_dec M 1) as [-> | NE].
  - rewrite cosine_coefs_one. lra.
  - apply cosine_coefs_pos with (n := 1%Z); [lia | lia |].
    apply hanning_coef_pos, second_angle. lia.
Qed.

Lemma blackman_sumsq_pos (M : Z) :
  (1 <= M)%Z -> M <> 2%Z -> 0 < sumsq (cosine_coefs blackman_coef M).
Proof.
  intros HM H2. destruct (Z.eq_dec M 1) as [-> | NE].
  - rewrite cosine_coefs_one. lra.
  - apply cosine_coefs_pos with (n := 1%Z); [lia | lia |].
    apply blackman_coef_pos, second_angle. lia.
Qed.

Lemma ones_sumsq_pos (N : Z) :
  (1 <= N)%Z -> 0 < sumsq (repeat 1 (Z.to_nat N)).
Proof.
  intros HN. apply sumsq_pos with (x := 1); [| lra].
  destruct (Z.to_nat N) as [| n] eqn:E; [lia | now left].
Qed.

Lemma raw_coefs_sumsq_pos (w : string) (N : Z) :
  (1 <= N)%Z -> degenerate w N = false -> 0 < sumsq (raw_coefs w N).
Proof.
  intros HN Hd. unfold degenerate in Hd. unfold raw_coefs.
  destruct (String.eqb w "Hamming"); [now apply hamming_sumsq_pos |].
  destruct (String.eqb w "Hanning").
  { rewrite andb_true_r in Hd. apply Z.eqb_neq in Hd.
    now apply hanning_sumsq_pos. }
  destruct (String.eqb w "Blackman").
  { rewrite andb_true_r in Hd. apply Z.eqb_neq in Hd.
    now apply blackman_sumsq_pos. }
  now apply ones_sumsq_pos.
Qed.

(** The normalized window of a non-degenerate kind: finite coefficients of
    unit norm, one per antenna. *)
Lemma windowVector_finite (w : string) (N : Z) :
  (1 <= N)%Z -> degenerate w N = false ->
  windowVector w N = Ok (map Fin (unit_coefs (raw_coefs w N))) /\
  sumsq (unit_coefs (raw_coefs w N)) = 1 /\
  List.length (unit_coefs (raw_coefs w N)) = Z.to_nat N.
Proof.
  intros HN Hd.
  assert (Hp := raw_coefs_sumsq_pos w N HN Hd).
  split; [| split].
  - unfold windowVector. rewrite raw_window_ok by lia. cbn [bind].
    rewrite normalize_finite by lra. reflexivity.
  - apply sumsq_unit_coefs. lra.
  - now rewrite length_unit_coefs, length_raw_coefs.
Qed.

(** ** The response over a sweep of finite angles *)

Lemma response_of_finite (rt rr : list R) (Nt Nr : Z) (theta_user : R)
  (angles : list R) :
  sumsq rt <> 0 -> sumsq rr <> 0 ->
  response_of (map Fin rt) (map Fin rr) Nt Nr (Fin theta_user)
              (map Fin angles) =
  map Fin (gains (unit_coefs rt) (unit_coefs rr) Nt Nr theta_user angles).
Proof.
  intros Ht Hr. unfold response_of, gains.
  rewrite !normalize_finite by assumption.
  rewrite !steering_vector_finite, channel_finite, !map_map.
  apply map_ext. intros a. now rewrite gain_finite, gainR_terms.
Qed.

(** *** The maximum *)

Lemma fmaximum_Fin (x y : R) : fmaximum (Fin x) (Fin y) = Fin (Rmax x y).
Proof. reflexivity. Qed.

Lemma np_max_finite (x : R) (l : list R) :
  np_max (map Fin (x :: l)) = Ok (Fin (fold_left Rmax l x)).
Proof.
  cbn [map np_max]. f_equal. revert x.
  induction l as [| y l IH]; intros x; cbn [map fold_left]; [reflexivity |].
  now rewrite fmaximum_Fin, IH.
Qed.

Lemma fold_Rmax_ge_acc (l : list R) (x : R) : x <= fold_left Rmax l x.
Proof.
  revert x. induction l as [| y l IH]; intros x; cbn [fold_left]; [lra |].
  eapply Rle_trans; [apply Rmax_l | apply IH].
Qed.

Lemma fold_Rmax_upper (l : list R) (x : R) :
  Forall (fun y => y <= fold_left Rmax l x) l.
Proof.
  revert x. induction l as [| y l IH]; intros x; cbn [fold_left];
    constructor.
  - eapply Rle_trans; [apply Rmax_r | apply fold_Rmax_ge_acc].
  - apply IH.
Qed.

Lemma fold_Rmax_In (l : list R) (x : R) : In (fold_left Rmax l x) (x :: l).
Proof.
  revert x. induction l as [| y l IH]; intros x; cbn [fold_left].
  - now left.
  - destruct (IH (Rmax x y)) as [E | Hin].
    + rewrite <- E. unfold Rmax. destruct (Rle_dec x y).
      * right; now left.
      * now left.
    + right; now right.
Qed.

(** The maximum of a non-empty list that holds an upper bound of itself. *)
Lemma fold_Rmax_peak (l : list R) (x g : R) :
  In g (x :: l) -> Forall (fun y => y <= g) (x :: l) ->
  fold_left Rmax l x = g.
Proof.
  intros Hin Hub. apply Rle_antisym.
  - rewrite Forall_forall in Hub. apply Hub, fold_Rmax_In.
  - destruct Hin as [<- | Hin]; [apply fold_Rmax_ge_acc |].
    assert (H := fold_Rmax_upper l x). rewrite Forall_forall in H.
    now apply H.
Qed.

(** *** Decibels *)

Lemma ln_10_pos : 0 < ln 10.
Proof. rewrite <- ln_1. apply ln_increasing; lra. Qed.

Lemma to_dB_peak (M : R) : 0 < M -> to_dB (Fin M) (Fin M) = Fin 0.
Proof.
  intros HM. unfold to_dB, fdiv.
  destruct (Req_dec_T M 0) as [E | _]; [lra |].
  replace (M / M) with 1 by (field; lra).
  unfold flog10.
  destruct (Rlt_dec 1 0) as [H | _]; [lra |].
  destruct (Req_dec_T 1 0) as [H | _]; [lra |].
  rewrite ln_1. cbn [fmul]. f_equal. unfold Rdiv. ring.
Qed.

Lemma to_dB_below (M x : R) :
  0 < M -> 0 <= x -> x <= M -> at_most_0dB (to_dB (Fin M) (Fin x)).
Proof.
  intros HM H0 Hx. unfold to_dB, fdiv.
  destruct (Req_dec_T M 0) as [E | _]; [lra |].
  assert (Hi : 0 < / M) by now apply Rinv_0_lt_compat.
  assert (Hq : 0 <= x / M) by (unfold Rdiv; nra).
  unfold flog10.
  destruct (Rlt_dec (x / M) 0) as [H | _]; [lra |].
  destruct (Req_dec_T (x / M) 0) as [E | NE].
  - left. cbn [fmul]. unfold inf_times.
    destruct (Req_dec_T 20 0) as [H | _]; [lra |].
    destruct (Rlt_dec 0 20) as [_ | H]; [reflexivity | lra].
  - right. eexists. split; [reflexivity |].
    assert (H1 : x / M <= 1).
    { apply Rmult_le_reg_r with (r := M); [lra |].
      unfold Rdiv. rewrite Rmult_assoc, Rinv_l by lra. lra. }
    assert (Hl : ln (x / M) <= 0).
    { rewrite <- ln_1. destruct H1 as [H1 | ->]; [| lra].
      left. apply ln_increasing; lra. }
    assert (H10 := ln_10_pos).
    assert (Hd : ln (x / M) / ln 10 <= 0).
    { unfold Rdiv. assert (0 < / ln 10) by now apply Rinv_0_lt_compat. nra. }
    lra.
Qed.

Lemma at_most_0dB_fle (g : f64) : at_most_0dB g -> fle g (Fin 0).
Proof. intros [-> | [y [-> Hy]]]; cbn; [exact I | exact Hy]. Qed.

Lemma fmaximum_at_most_0dB (a b : f64) :
  at_most_0dB a -> at_most_0dB b ->
  at_most_0dB (fmaximum a b) /\
  (a = Fin 0 \/ b = Fin 0 -> fmaximum a b = Fin 0).
Proof.
  intros [-> | [x [-> Hx]]] [-> | [y [-> Hy]]]; cbn [fmaximum].
  - split; [now left | intros [H | H]; discriminate].
  - split; [right; eauto | intros [H | H]; [discriminate | exact H]].
  - split; [right; eauto | intros [H | H]; [exact H | discriminate]].
  - split.
    + right. eexists; split; [reflexivity |]. now apply Rmax_lub.
    + intros [H | H]; injection H as ->; f_equal.
      * rewrite Rmax_left; lra.
      * rewrite Rmax_right; lra.
Qed.

Lemma fold_fmaximum_0dB (l : list f64) (a : f64) :
  at_most_0dB a -> Forall at_most_0dB l ->
  at_most_0dB (fold_left fmaximum l a) /\
  (In (Fin 0) (a :: l) -> fold_left fmaximum l a = Fin 0).
Proof.
  intros Ha Hl. revert a Ha.
  induction Hl as [| b l Hb _ IH]; intros a Ha; cbn [fold_left].
  - split; [exact Ha | intros [H | []]; now symmetry].
  - destruct (fmaximum_at_most_0dB a b Ha Hb) as [Hm H0].
    destruct (IH _ Hm) as [IH1 IH2]. split; [exact IH1 |].
    intros [H | [H | H]].
    + apply IH2. left. apply H0. left. now symmetry.
    + apply IH2. left. apply H0. right. now symmetry.
    + apply IH2. now right.
Qed.

(** A non-empty sequence of values at most 0 dB that holds 0 dB. *)
Lemma np_max_0dB (l : list f64) :
  Forall at_most_0dB l -> In (Fin 0) l -> np_max l = Ok (Fin 0).
Proof.
  intros Hl Hin. destruct l as [| a l]; [contradiction |].
  cbn [np_max]. f_equal.
  inversion Hl as [| ? ? Ha Hl']; subst.
  now apply (fold_fmaximum_0dB l a Ha Hl').
Qed.

(** The last line of the function on finite gains with a positive maximum. *)
Lemma dB_of_gains (gs : list R) (M : R) :
  0 < M -> In M gs -> Forall (fun g => 0 <= g <= M) gs ->
  np_max (map Fin gs) = Ok (Fin M) /\
  Forall at_most_0dB (map (to_dB (Fin M)) (map Fin gs)) /\
  In (Fin 0) (map (to_dB (Fin M)) (map Fin gs)).
Proof.
  intros HM Hin Hb. split; [| split].
  - destruct gs as [| g0 gl]; [contradiction |].
    rewrite np_max_finite. do 2 f_equal.
    apply fold_Rmax_peak; [exact Hin |].
    eapply Forall_impl; [| exact Hb]. intros g Hg; apply Hg.
  - rewrite map_map. apply Forall_map.
    eapply Forall_impl; [| exact Hb]. intros g [H0 H1].
    now apply to_dB_below.
  - rewrite map_map. apply in_map_iff. exists M.
    split; [now apply to_dB_peak | exact Hin].
Qed.

(** With unit-norm windows the gain at the steering angle is 1, and no
    gain of the sweep exceeds it. *)
Lemma gains_peak (ut ur : list R) (Nt Nr : Z) (theta_user : R)
  (angles : list R) :
  sumsq ut = 1 -> sumsq ur = 1 ->
  List.length ut = Z.to_nat Nt -> List.length ur = Z.to_nat Nr ->
  Cmod (Csum (terms ut ur Nt Nr theta_user theta_user)) = 1 /\
  Forall (fun g => 0 <= g <= 1) (gains ut ur Nt Nr theta_user angles).
Proof.
  intros St Sr Lt Lr.
  assert (P : Cmod (Csum (terms ut ur Nt Nr theta_user theta_user)) = 1).
  { rewrite gainR_at_steering by assumption. rewrite St, Sr. ring. }
  split; [exact P |].
  unfold gains. apply Forall_map, Forall_forall. intros a _.
  split; [apply Cmod_nonneg |]. rewrite <- P. apply gainR_peak.
Qed.

Lemma nth_map_default {A B : Type} (f : A -> B) (l : list A) (i : nat)
  (a : A) (b : B) :
  (i < List.length l)%nat -> nth i (map f l) b = f (nth i l a).
Proof.
  intros H. rewrite (nth_indep _ b (f a)) by now rewrite length_map.
  apply map_nth.
Qed.

(** The response for non-degenerate windows and a finite sweep that holds
    the steering angle: the maximal gain is 1. *)
Lemma response_at_steering (Nt Nr : Z) (w : string) (theta_user : R)
  (angles : list R) :
  (1 <= Nt)%Z -> (1 <= Nr)%Z ->
  degenerate w Nt = false -> degenerate w Nr = false ->
  In theta_user angles ->
  let ut := unit_coefs (raw_coefs w Nt) in
  let ur := unit_coefs (raw_coefs w Nr) in
  let gs := gains ut ur Nt Nr theta_user angles in
  mimo_array_response Nt Nr (Fin theta_user) (map Fin angles) w =
  Ok (map (to_dB (Fin 1)) (map Fin gs)) /\
  Forall (fun g => 0 <= g <= 1) gs /\
  Cmod (Csum (terms ut ur Nt Nr theta_user theta_user)) = 1.
Proof.
  intros HNt HNr Dt Dr Hin ut ur gs.
  destruct (windowVector_finite w Nt HNt Dt) as [_ [St Lt]].
  destruct (windowVector_finite w Nr HNr Dr) as [_ [Sr Lr]].
  assert (Pt := raw_coefs_sumsq_pos w Nt HNt Dt).
  assert (Pr := raw_coefs_sumsq_pos w Nr HNr Dr).
  destruct (gains_peak _ _ Nt Nr theta_user angles St Sr Lt Lr) as [P B].
  fold ut ur in P, B. fold gs in B.
  assert (Hpeak : In 1 gs).
  { unfold gs, gains. apply in_map_iff. exists theta_user. now split. }
  assert (H01 : 0 < 1) by lra.
  destruct (dB_of_gains gs 1 H01 Hpeak B) as [Hmax _].
  split; [| split; [exact B | exact P]].
  assert (E : response_of (map Fin (raw_coefs w Nt)) (map Fin (raw_coefs w Nr))
                          Nt Nr (Fin theta_user) (map Fin angles) =
              map Fin gs) by (apply response_of_finite; lra).
  rewrite <- E. apply mimo_array_response_ok.
  - apply raw_window_ok; lia.
  - apply raw_window_ok; lia.
  - rewrite E. exact Hmax.
Qed.

(** ** A Hanning window of two antennas *)

Lemma fmul_nan_r (a : f64) : fmul a NaN = NaN.
Proof. destruct a; reflexivity. Qed.

Lemma fadd_nan_r (a : f64) : fadd a NaN = NaN.
Proof. destruct a; reflexivity. Qed.

Lemma fdiv_nan_r (a : f64) : fdiv a NaN = NaN.
Proof. destruct a; reflexivity. Qed.

Lemma cmul_nan_r (z : complex) : cmul z cnan = cnan.
Proof.
  unfold cmul, cnan, fsub. cbn [re im fneg].
  now rewrite !fmul_nan_r, !fadd_nan_r.
Qed.

Lemma cmul_of_real_nan (z : complex) : cmul (of_real NaN) z = cnan.
Proof.
  unfold cmul, of_real, cnan, fsub. cbn [re im fmul fadd].
  reflexivity.
Qed.

(** Both coefficients of [np.hanning(2)] are zero. *)
Lemma hanning_two : raw_coefs "Hanning" 2 = [0; 0].
Proof.
  change (raw_coefs "Hanning" 2)
    with [hanning_coef (2 * PI * IZR 0 / IZR 1);
          hanning_coef (2 * PI * IZR 1 / IZR 1)].
  unfold hanning_coef.
  replace (2 * PI * 0 / 1) with 0 by field.
  replace (2 * PI * 1 / 1) with (2 * PI) by field.
  rewrite cos_0, cos_2PI.
  f_equal; [lra | f_equal; lra].
Qed.

Lemma hanning_two_normalized :
  normalize (map Fin (raw_coefs "Hanning" 2)) = [NaN; NaN].
Proof.
  rewrite normalize_zero; rewrite hanning_two; [reflexivity |].
  unfold sumsq. cbn. ring.
Qed.

Lemma steering_vector_nan2 (theta : f64) :
  steering_vector [NaN; NaN] 2 theta = [cnan; cnan].
Proof.
  unfold steering_vector. change (arange 2) with [0%Z; 1%Z].
  cbn [map zip_with]. now rewrite !cmul_of_real_nan.
Qed.

Lemma length_normalize (win : list f64) :
  List.length (normalize win) = List.length win.
Proof. apply length_map. Qed.

Lemma length_steering_vector (win : list f64) (N : Z) (theta : f64) :
  List.length win = Z.to_nat N ->
  List.length (steering_vector win N theta) = Z.to_nat N.
Proof.
  intros L. unfold steering_vector.
  rewrite length_zip_with; [exact L |].
  now rewrite length_map, length_arange.
Qed.

(** The Frobenius sum of two channels whose rows are NaN. *)
Lemma csum_nan_rows (rx rx' : list complex) :
  rx <> [] -> rx' <> [] ->
  csum (concat (zip_with (zip_with cmul)
                         (map (fun _ => [cnan; cnan]) rx)
                         (map (map cconj) (map (fun _ => [cnan; cnan]) rx')))) =
  cnan.
Proof.
  destruct rx as [| x rx]; [contradiction |].
  destruct rx' as [| y rx']; [contradiction |].
  reflexivity.
Qed.

Lemma gain_nan_tx (win_rx : list f64) (Nr : Z) (theta_user ang : f64) :
  (1 <= Nr)%Z -> List.length win_rx = Z.to_nat Nr ->
  gain [NaN; NaN] win_rx 2 Nr
       (channel (steering_vector win_rx Nr theta_user)
                (steering_vector [NaN; NaN] 2 theta_user)) ang = NaN.
Proof.
  intros HNr L. unfold gain. rewrite !steering_vector_nan2.
  assert (Hne : forall theta, steering_vector win_rx Nr theta <> []).
  { intros theta E.
    assert (Hl := length_steering_vector win_rx Nr theta L).
    rewrite E in Hl. cbn in Hl. lia. }
  unfold channel, correlation, np_outer, np_sum.
  cbn [map]. change (cconj cnan) with cnan.
  rewrite (map_ext (fun x => [cmul x cnan; cmul x cnan])
                   (fun _ => [cnan; cnan]))
    by (intros x; now rewrite cmul_nan_r).
  rewrite (map_ext (fun x => [cmul x cnan; cmul x cnan])
                   (fun _ => [cnan; cnan]))
    by (intros x; now rewrite cmul_nan_r).
  now rewrite csum_nan_rows by apply Hne.
Qed.

Lemma np_max_all_nan (l : list f64) :
  l <> [] -> np_max (map (fun _ => NaN) l) = Ok NaN.
Proof.
  destruct l as [| a l]; [contradiction |]. intros _.
  cbn [map np_max]. f_equal.
  induction l as [| b l IH]; [reflexivity | exact IH].
Qed.

(** With the Hanning window and two transmit antennas every entry of the
    response is NaN, whatever the receive array, the steering angle and
    the sweep. *)
Lemma hanning_two_response (Nr : Z) (theta_user : f64) (theta : list f64) :
  (1 <= Nr)%Z -> theta <> [] ->
  mimo_array_response 2 Nr theta_user theta "Hanning" =
  Ok (map (fun _ => NaN) theta).
Proof.
  intros HNr Hne. unfold mimo_array_response.
  rewrite (raw_window_ok "Hanning" 2) by lia.
  rewrite (raw_window_ok "Hanning" Nr) by lia.
  cbn [bind]. rewrite hanning_two_normalized.
  set (wr := normalize (map Fin (raw_coefs "Hanning" Nr))).
  assert (L : List.length wr = Z.to_nat Nr).
  { unfold wr. now rewrite length_normalize, length_map, length_raw_coefs. }
  rewrite (map_ext _ (fun _ => NaN))
    by (intros a; now apply gain_nan_tx).
  rewrite np_max_all_nan by exact Hne.
  cbn [bind]. now rewrite map_map.
Qed.

(** ** The maximum of any NaN-free response *)

Lemma cabs_modulus_like (z : complex) : modulus_like (cabs z).
Proof.
  destruct z as [[x | | |] [y | | |]]; unfold cabs, fhypot, modulus_like;
    cbn [re im]; try tauto.
  right; right. eexists; split; [reflexivity | apply sqrt_pos].
Qed.

Lemma response_of_modulus_like win_tx win_rx Nt Nr theta_user theta :
  Forall modulus_like (response_of win_tx win_rx Nt Nr theta_user theta).
Proof.
  unfold response_of. apply Forall_map, Forall_forall. intros a _.
  unfold gain, correlation. apply cabs_modulus_like.
Qed.

Lemma fmaximum_choice (a b : f64) : fmaximum a b = a \/ fmaximum a b = b.
Proof.
  destruct a as [x | | |], b as [y | | |]; cbn [fmaximum]; try tauto.
  unfold Rmax. destruct (Rle_dec x y); tauto.
Qed.

Lemma fold_fmaximum_In (l : list f64) (a : f64) :
  In (fold_left fmaximum l a) (a :: l).
Proof.
  revert a. induction l as [| b l IH]; intros a; cbn [fold_left].
  - now left.
  - destruct (IH (fmaximum a b)) as [E | Hin].
    + rewrite <- E. destruct (fmaximum_choice a b) as [-> | ->].
      * now left.
      * right; now left.
    + right; now right.
Qed.

Lemma fle_fmaximum (a b : f64) (M : R) :
  fle (fmaximum a b) (Fin M) -> fle a (Fin M) /\ fle b (Fin M).
Proof.
  destruct a as [x | | |], b as [y | | |]; cbn [fmaximum fle]; try tauto.
  intros H. split.
  - eapply Rle_trans; [apply Rmax_l | exact H].
  - eapply Rle_trans; [apply Rmax_r | exact H].
Qed.

Lemma fold_fmaximum_upper (l : list f64) (a : f64) (M : R) :
  fold_left fmaximum l a = Fin M ->
  fle a (Fin M) /\ Forall (fun g => fle g (Fin M)) l.
Proof.
  revert a. induction l as [| b l IH]; intros a; cbn [fold_left].
  - intros ->. split; [cbn; lra | constructor].
  - intros E. destruct (IH _ E) as [H1 H2].
    apply fle_fmaximum in H1 as [Ha Hb]. split; [exact Ha |].
    now constructor.
Qed.

Lemma np_max_In (l : list f64) (m : f64) : np_max l = Ok m -> In m l.
Proof.
  destruct l as [| a l]; cbn [np_max]; [discriminate |].
  intros E; injection E as <-. apply fold_fmaximum_In.
Qed.

Lemma np_max_upper (l : list f64) (M : R) :
  np_max l = Ok (Fin M) -> Forall (fun g => fle g (Fin M)) l.
Proof.
  destruct l as [| a l]; cbn [np_max]; [discriminate |].
  intros E; injection E as E.
  apply fold_fmaximum_upper in E as [Ha Hl]. now constructor.
Qed.

Lemma to_dB_nan_max (g : f64) : to_dB NaN g = NaN.
Proof. unfold to_dB. now rewrite fdiv_nan_r. Qed.

Lemma to_dB_zero_max : to_dB (Fin 0) (Fin 0) = NaN.
Proof.
  unfold to_dB, fdiv.
  destruct (Req_dec_T 0 0) as [_ | NE]; [reflexivity | contradiction].
Qed.

(** The maximum of the gains, when the result has no NaN: a positive real
    that bounds every gain. *)
Lemma nan_free_gains (resp : list f64) (m : f64) :
  Forall modulus_like resp -> np_max resp = Ok m ->
  Forall (fun g => ~ is_nan g) (map (to_dB m) resp) ->
  exists M, m = Fin M /\ 0 < M /\
            Forall (fun g => exists x, g = Fin x /\ 0 <= x <= M) resp.
Proof.
  intros Hs Hm Hn.
  assert (Hin := np_max_In resp m Hm).
  assert (Hnan : forall g, In g resp -> ~ is_nan (to_dB m g)).
  { intros g Hg. rewrite Forall_forall in Hn. apply Hn.
    apply in_map_iff. now exists g. }
  assert (Hshape : modulus_like m).
  { rewrite Forall_forall in Hs. now apply Hs. }
  destruct Hshape as [-> | [-> | [M [-> HM]]]].
  - exfalso. apply (Hnan NaN Hin). now rewrite to_dB_nan_max.
  - exfalso. apply (Hnan PInf Hin). exact I.
  - destruct (Req_dec_T M 0) as [-> | NE].
    { exfalso. apply (Hnan (Fin 0) Hin). now rewrite to_dB_zero_max. }
    exists M. split; [reflexivity |]. split; [lra |].
    assert (Hub := np_max_upper resp M Hm).
    rewrite Forall_forall in *. intros g Hg.
    specialize (Hs g Hg). specialize (Hub g Hg).
    destruct Hs as [-> | [-> | [x [-> Hx]]]]; cbn [fle] in Hub;
      try contradiction.
    exists x. split; [reflexivity | lra].
Qed.

(** ** Symmetries *)



Lemma Cconj_Csum (l : list C) : Csum (map Cconj l) = Cconj (Csum l).
Proof.
  induction l as [| z l IH]; cbn [map Csum fold_right].
  - unfold Cconj. cbn [fst snd]. f_equal. ring.
  - fold (Csum (map Cconj l)). fold (Csum l). rewrite IH.
    unfold Cconj, Cadd. cbn [fst snd]. f_equal. ring.
Qed.









(** * The properties of the specification *)

(** ** Peak alignment *)

(** X1: for windows of non-zero norm and a finite sweep that holds the
    steering angle at index [i], the response is 0 dB at [i] and no entry
    exceeds it. *)
Theorem peak_alignment_nondegenerate (Nt Nr : Z) (w : string)
  (angles : list R) (i : nat) :
  (1 <= Nt)%Z -> (1 <= Nr)%Z ->
  degenerate w Nt = false -> degenerate w Nr = false ->
  (i < List.length angles)%nat ->
  exists out,
    mimo_array_response Nt Nr (Fin (nth i angles 0)) (map Fin angles) w =
    Ok out /\
    nth i out NaN = Fin 0 /\
    Forall (fun g => fle g (nth i out NaN)) out /\
    np_max out = Ok (Fin 0).
Proof.
  intros HNt HNr Dt Dr Hi.
  set (u := nth i angles 0).
  assert (Hin : In u angles) by now apply nth_In.
  destruct (response_at_steering Nt Nr w u angles HNt HNr Dt Dr Hin)
    as [E [B P]].
  set (gs := gains (unit_coefs (raw_coefs w Nt)) (unit_coefs (raw_coefs w Nr))
                   Nt Nr u angles) in *.
  assert (Hpeak : In 1 gs).
  { unfold gs, gains. apply in_map_iff. exists u. now split. }
  assert (H01 : 0 < 1) by lra.
  destruct (dB_of_gains gs 1 H01 Hpeak B) as [_ [Hle H0]].
  assert (Hi' : nth i (map (to_dB (Fin 1)) (map Fin gs)) NaN = Fin 0).
  { rewrite map_map.
    rewrite (nth_map_default _ gs i 0)
      by (unfold gs, gains; now rewrite length_map).
    unfold gs, gains. rewrite (nth_map_default _ angles i 0) by exact Hi.
    fold u. rewrite P. apply to_dB_peak. lra. }
  eexists. split; [exact E |]. split; [exact Hi' |]. split.
  - rewrite Hi'. eapply Forall_impl; [| exact Hle].
    intros g. apply at_most_0dB_fle.
  - now apply np_max_0dB.
Qed.

(** C1, at the input where the code departs from it: with the Hanning
    window and two transmit antennas the sweep [-90; 0; 90] holds the
    steering angle 0 at index 1, yet the entry there is NaN and compares
    with no entry, itself included. *)
Theorem peak_alignment_hanning_two :
  exists out,
    mimo_array_response 2 4 (Fin 0) [Fin (-90); Fin 0; Fin 90] "Hanning" =
    Ok out /\
    nth 1 out (Fin 0) = NaN /\
    (Forall (fun g => fle g (nth 1 out (Fin 0))) out -> False).
Proof.
  eexists. split; [apply hanning_two_response; [lia | discriminate] |].
  cbn [map nth]. split; [reflexivity |].
  intros H. inversion H as [| ? ? H1 _]. exact H1.
Qed.

(** ** Normalization to 0 dB *)

(** X2: whenever the returned sequence holds no NaN, its maximum is
    exactly 0 dB. *)
Theorem max_of_nan_free_response (Nt Nr : Z) (theta_user : f64)
  (theta : list f64) (w : string) (out : list f64) :
  mimo_array_response Nt Nr theta_user theta w = Ok out ->
  Forall (fun g => ~ is_nan g) out ->
  np_max out = Ok (Fin 0).
Proof.
  unfold mimo_array_response.
  destruct (raw_window w Nt) as [wt | e]; [| discriminate].
  destruct (raw_window w Nr) as [wr | e]; [| discriminate].
  cbn [bind].
  change (map (gain (normalize wt) (normalize wr) Nt Nr
                    (channel (steering_vector (normalize wr) Nr theta_user)
                             (steering_vector (normalize wt) Nt theta_user)))
              theta)
    with (response_of wt wr Nt Nr theta_user theta).
  set (resp := response_of wt wr Nt Nr theta_user theta).
  destruct (np_max resp) as [m | e] eqn:Hm; [| discriminate].
  cbn [bind]. intros E; injection E as <-. intros Hn.
  assert (Hs : Forall modulus_like resp)
    by apply response_of_modulus_like.
  destruct (nan_free_gains resp m Hs Hm Hn) as [M [-> [HM Hb]]].
  apply np_max_0dB.
  - apply Forall_map. eapply Forall_impl; [| exact Hb].
    intros g [x [-> [H0 H1]]]. now apply to_dB_below.
  - apply in_map_iff. exists (Fin M).
    split; [now apply to_dB_peak | now apply np_max_In].
Qed.

(** C2, at the input where the code departs from it: a valid geometry, a
    recognized window and a non-empty sweep, and the maximum of the
    returned sequence is NaN, not 0 dB. *)
Theorem normalization_hanning_two :
  exists out,
    mimo_array_response 2 4 (Fin 0) [Fin (-90); Fin 0; Fin 90] "Hanning" =
    Ok out /\
    np_max out = Ok NaN /\
    (within_tol NaN (Fin 0) -> False).
Proof.
  eexists. split; [apply hanning_two_response; [lia | discriminate] |].
  split; [reflexivity | intros H; exact H].
Qed.

(** ** Window normalization *)

(** X3: the window after lines 75-76 has N entries and Euclidean norm 1,
    for all Uniform and Hamming windows and for the Hanning and Blackman
    windows of length other than 2.  (Exact arithmetic: the norm is the real
    number 1, hence 1 within the tolerance 1e-9; in doubles it is 1 up to
    rounding, 0.9999999999999999 for instance.  The Blackman window of
    length 2 is left out because its coefficients vanish in exact
    arithmetic; in doubles they are about -1.4e-17 and the code does
    normalize it.) *)
Theorem windowVector_unit_norm (w : string) (N : Z) :
  (1 <= N)%Z -> degenerate w N = false ->
  exists win,
    windowVector w N = Ok win /\
    List.length win = Z.to_nat N /\
    linalg_norm win = Fin 1 /\
    within_tol (linalg_norm win) (Fin 1).
Proof.
  intros HN Hd.
  destruct (windowVector_finite w N HN Hd) as [E [S L]].
  assert (Hn : linalg_norm (map Fin (unit_coefs (raw_coefs w N))) = Fin 1)
    by (rewrite linalg_norm_finite, S, sqrt_1; reflexivity).
  eexists. split; [exact E |]. split; [now rewrite length_map |].
  split; [exact Hn |].
  rewrite Hn. cbn [within_tol]. rewrite Rminus_diag, Rabs_R0. lra.
Qed.

(** C3, at the input where the code departs from it: the two raw
    coefficients of the Hanning window of length 2 are zero, the division
    by their norm is 0/0, and the normalized window is NaN twice, of norm
    NaN: neither of norm 1 nor a unit impulse. *)
Theorem window_norm_hanning_two :
  windowVector "Hanning" 2 = Ok [NaN; NaN] /\
  linalg_norm [NaN; NaN] = NaN /\
  (within_tol (linalg_norm [NaN; NaN]) (Fin 1) -> False).
Proof.
  split; [| split].
  - unfold windowVector. rewrite raw_window_ok by lia. cbn [bind].
    now rewrite hanning_two_normalized.
  - reflexivity.
  - intros H. exact H.
Qed.

(** ** Window kinds outside the recognized set *)


Lemma unrecognized_not_cosine (w : string) :
  w <> "Hamming"%string -> w <> "Hanning"%string -> w <> "Blackman"%string ->
  ~ recognized_cosine w.
Proof. intros H1 H2 H3 [H | [H | H]]; contradiction. Qed.

Lemma uniform_not_cosine : ~ recognized_cosine "Uniform".
Proof. apply unrecognized_not_cosine; discriminate. Qed.



(** C9, refuted as stated: the branch of [np.ones] does raise.  With a kind
    outside the three cosine windows and a negative number of transmit
    antennas the call stops with the ValueError of [np.ones(-1)]; so does
    the call with "Uniform". *)
Lemma fallback_window_raises :
  mimo_array_response (-1) 4 (Fin 0) [Fin 0] "Kaiser" =
  Err (ValueError "negative dimensions are not allowed") /\
  mimo_array_response (-1) 4 (Fin 0) [Fin 0] "Uniform" =
  Err (ValueError "negative dimensions are not allowed").
Proof. split; reflexivity. Qed.

Lemma sumsq_repeat_one (n : nat) : sumsq (repeat 1 n) = INR n.
Proof.
  induction n as [| n IH]; [reflexivity |].
  cbn [repeat]. rewrite sumsq_cons, IH, S_INR. ring.
Qed.

(** The normalized window of [np.ones(N)]: every weight is 1 / sqrt(N). *)
Lemma normalize_ones (N : Z) :
  (1 <= N)%Z ->
  normalize (repeat (Fin 1) (Z.to_nat N)) =
  repeat (Fin (1 / sqrt (IZR N))) (Z.to_nat N).
Proof.
  intros HN.
  assert (E : INR (Z.to_nat N) = IZR N)
    by (rewrite INR_IZR_INZ; f_equal; lia).
  assert (HN' : 1 <= IZR N) by now apply IZR_le.
  rewrite <- (map_repeat 1 (Z.to_nat N) Fin).
  rewrite normalize_finite by (rewrite sumsq_repeat_one, E; lra).
  unfold unit_coefs. rewrite sumsq_repeat_one, E, !map_repeat. reflexivity.
Qed.

(** C9, as the code has it: a window type other than "Hamming", "Hanning"
    and "Blackman", "Uniform" or not, takes the branch of [np.ones].  The
    call returns what the call with "Uniform" returns, on every input,
    errors included; it raises exactly when the sweep is empty or an antenna
    count is negative; and for counts that are not negative its result is
    the one computed from the all-ones raw windows of both arrays, whose
    normalized weights are all 1 / sqrt(N). *)
Theorem fallback_window_is_uniform (w : string) (Nt Nr : Z)
  (theta_user : f64) (theta : list f64) :
  w <> "Hamming"%string -> w <> "Hanning"%string -> w <> "Blackman"%string ->
  mimo_array_response Nt Nr theta_user theta w =
  mimo_array_response Nt Nr theta_user theta "Uniform" /\
  (raises (mimo_array_response Nt Nr theta_user theta w) <->
   theta = [] \/ (Nt < 0)%Z \/ (Nr < 0)%Z) /\
  ((0 <= Nt)%Z -> (0 <= Nr)%Z ->
   let ones_tx := repeat (Fin 1) (Z.to_nat Nt) in
   let ones_rx := repeat (Fin 1) (Z.to_nat Nr) in
   let response := response_of ones_tx ones_rx Nt Nr theta_user theta in
   raw_window w Nt = Ok ones_tx /\
   raw_window w Nr = Ok ones_rx /\
   mimo_array_response Nt Nr theta_user theta w =
   (m <- np_max response ;; Ok (map (to_dB m) response))) /\
  (forall N, (1 <= N)%Z ->
     windowVector w N = Ok (repeat (Fin (1 / sqrt (IZR N))) (Z.to_nat N))).
Proof.
  intros H1 H2 H3.
  assert (Hw := unrecognized_not_cosine w H1 H2 H3).
  assert (E : forall N, raw_window w N = raw_window "Uniform" N).
  { intros N. now rewrite (raw_window_fallback w N Hw),
      (raw_window_fallback "Uniform" N uniform_not_cosine). }
  split; [| split; [| split]].
  - unfold mimo_array_response. now rewrite !E.
  - rewrite mimo_array_response_raises. tauto.
  - intros HNt HNr ones_tx ones_rx response.
    assert (Et : raw_window w Nt = Ok ones_tx)
      by (rewrite (raw_window_fallback w Nt Hw); now apply np_ones_ok).
    assert (Er : raw_window w Nr = Ok ones_rx)
      by (rewrite (raw_window_fallback w Nr Hw); now apply np_ones_ok).
    split; [exact Et |]. split; [exact Er |].
    unfold mimo_array_response. rewrite Et, Er. reflexivity.
  - intros N HN. unfold windowVector.
    rewrite (raw_window_fallback w N Hw), np_ones_ok by lia.
    cbn [bind]. f_equal. now apply normalize_ones.
Qed.

Lemma fallback_window_is_uniform_witness :
  mimo_array_response 8 4 (Fin 30) [Fin 0; Fin 30] "Chebyshev" =
  mimo_array_response 8 4 (Fin 30) [Fin 0; Fin 30] "Uniform" /\
  (raises (mimo_array_response 8 4 (Fin 30) [Fin 0; Fin 30] "Chebyshev") <->
   [Fin 0; Fin 30] = [] \/ (8 < 0)%Z \/ (4 < 0)%Z) /\
  ((0 <= 8)%Z -> (0 <= 4)%Z ->
   let ones_tx := repeat (Fin 1) (Z.to_nat 8) in
   let ones_rx := repeat (Fin 1) (Z.to_nat 4) in
   let response := response_of ones_tx ones_rx 8 4 (Fin 30) [Fin 0; Fin 30] in
   raw_window "Chebyshev" 8 = Ok ones_tx /\
   raw_window "Chebyshev" 4 = Ok ones_rx /\
   mimo_array_response 8 4 (Fin 30) [Fin 0; Fin 30] "Chebyshev" =
   (m <- np_max response ;; Ok (map (to_dB m) response))) /\
  (forall N, (1 <= N)%Z ->
     windowVector "Chebyshev" N =
     Ok (repeat (Fin (1 / sqrt (IZR N))) (Z.to_nat N))).
Proof.
  apply (fallback_window_is_uniform "Chebyshev" 8 4 (Fin 30)
           [Fin 0; Fin 30]); discriminate.
Defined.

(** ** Invalid geometry and empty sweeps *)

Lemma gain_no_tx (win_rx : list f64) (Nr : Z) (H : list (list complex))
  (ang : f64) (Nt : Z) :
  gain [] win_rx Nt Nr H ang = Fin 0.
Proof.
  unfold gain, channel, correlation, np_sum, np_outer.
  change (steering_vector [] Nt ang) with (@nil complex). cbn [map].
  assert (E : forall (A B : list (list complex)),
             Forall (fun r => r = []) A ->
             csum (concat (zip_with (zip_with cmul) A B)) = czero).
  { intros A. induction A as [| r A IH]; intros [| r' B] HA; cbn;
      try reflexivity.
    inversion HA as [| ? ? -> HA']; subst. cbn. now apply IH. }
  rewrite E.
  - unfold cabs, czero, fhypot. cbn [re im]. f_equal.
    replace (0 * 0 + 0 * 0) with 0 by ring. apply sqrt_0.
  - apply Forall_map, Forall_forall. intros x _. reflexivity.
Qed.

(** C5, refuted: with no transmit antenna (Nt = 0) and the Hamming window
    the call raises nothing; it returns one NaN for the one sweep angle. *)
Lemma zero_antennas_no_error :
  mimo_array_response 0 1 (Fin 0) [Fin 0] "Hamming" = Ok [NaN].
Proof.
  unfold mimo_array_response.
  change (raw_window "Hamming" 0) with (Ok (@nil f64)).
  change (raw_window "Hamming" 1) with (Ok [Fin 1]).
  cbn [bind]. change (normalize []) with (@nil f64).
  cbn [map]. rewrite gain_no_tx. cbn [np_max fold_left bind map].
  now rewrite to_dB_zero_max.
Qed.

(** C5, as the code has it: the function validates neither the geometry
    nor the sweep.  It raises exactly when the sweep is empty (the maximum
    of an empty array) or when a negative antenna count reaches [np.ones]
    (a window type other than Hamming, Hanning and Blackman); in every
    other case, with Nt < 1 or Nr < 1 too, it returns one value per sweep
    angle. *)
Theorem mimo_array_response_errors (Nt Nr : Z) (theta_user : f64)
  (theta : list f64) (w : string) :
  (raises (mimo_array_response Nt Nr theta_user theta w) <->
   theta = [] \/ (~ recognized_cosine w /\ ((Nt < 0)%Z \/ (Nr < 0)%Z))) /\
  (forall out, mimo_array_response Nt Nr theta_user theta w = Ok out ->
               List.length out = List.length theta).
Proof.
  split; [apply mimo_array_response_raises |].
  intros out. apply mimo_array_response_length.
Qed.

(** ** The Uniform window *)


(** ** Steering vectors *)




(** ** The folding of the bearing *)

(** C8: on a bearing in (-180, 180] the folding maps [theta > 90] to
    [180 - theta] and [theta < -90] to [-180 - theta], leaves the other
    values unchanged, and always returns an angle in [-90, 90]. *)
Theorem fold_bearing_range (theta : R) :
  -180 < theta <= 180 ->
  (90 < theta -> fold_bearing (Fin theta) = Fin (180 - theta)) /\
  (theta < -90 -> fold_bearing (Fin theta) = Fin (-180 - theta)) /\
  (-90 <= theta <= 90 -> fold_bearing (Fin theta) = Fin theta) /\
  exists r, fold_bearing (Fin theta) = Fin r /\ -90 <= r <= 90.
Proof.
  intros [Hlo Hhi]. unfold fold_bearing, fltb, fsub.
  cbn [fneg fadd].
  destruct (Rlt_dec 90 theta) as [H1 | H1].
  - repeat split; try (intros; lra); try reflexivity.
    eexists; split; [reflexivity | lra].
  - destruct (Rlt_dec theta (-90)) as [H2 | H2].
    + repeat split; try (intros; lra); try reflexivity.
      eexists; split; [reflexivity | lra].
    + repeat split; try (intros; lra); try reflexivity.
      eexists; split; [reflexivity | lra].
Qed.

Lemma fold_bearing_range_witness :
  (90 < 135 -> fold_bearing (Fin 135) = Fin (180 - 135)) /\
  (135 < -90 -> fold_bearing (Fin 135) = Fin (-180 - 135)) /\
  (-90 <= 135 <= 90 -> fold_bearing (Fin 135) = Fin 135) /\
  exists r, fold_bearing (Fin 135) = Fin r /\ -90 <= r <= 90.
Proof.
  apply (fold_bearing_range 135). lra.
Defined.

(** * Further properties: the script around the function *)

(** ** The folding and the pattern *)




(** ** The steering angle of a location *)

Lemma arctan2R_range (y x : R) : - PI < arctan2R y x <= PI.
Proof.
  assert (HP := PI_RGT_0). assert (B := atan_bound (y / x)).
  unfold arctan2R.
  destruct (Rlt_dec 0 x) as [Hx | Hx]; [lra |].
  destruct (Rlt_dec x 0) as [Hx' | Hx'].
  - assert (Hi : / x < 0) by now apply Rinv_lt_0_compat.
    destruct (Rlt_dec y 0) as [Hy | Hy].
    + assert (0 < atan (y / x)).
      { rewrite <- atan_0. apply atan_increasing. unfold Rdiv. nra. }
      lra.
    + assert (atan (y / x) <= 0).
      { rewrite <- atan_0. unfold Rdiv.
        destruct (Req_dec_T y 0) as [-> | Hy0].
        - rewrite Rmult_0_l. lra.
        - left. apply atan_increasing. nra. }
      lra.
  - destruct (Rlt_dec 0 y); [lra |]. destruct (Rlt_dec y 0); lra.
Qed.

Lemma bearing_finite (user_lat user_lon : R) :
  exists b, bearing (Fin user_lat) (Fin user_lon) = Fin b /\ -180 < b <= 180.
Proof.
  unfold bearing, bs_lat, bs_lon, np_degrees, fsub.
  cbn [fneg fadd np_arctan2 fmul]. eexists. split; [reflexivity |].
  set (a := arctan2R _ _).
  assert (R := arctan2R_range (user_lon + - (771025 / 10000))
                              (user_lat + - (287041 / 10000))).
  fold a in R. assert (HP := PI_RGT_0).
  assert (Hi : 0 < / PI) by now apply Rinv_0_lt_compat.
  assert (E : PI * (180 / PI) = 180) by (field; lra).
  unfold Rdiv in *. split; nra.
Qed.

Lemma fold_bearing_finite (b : R) :
  -180 < b <= 180 ->
  exists r, fold_bearing (Fin b) = Fin r /\ -90 <= r <= 90.
Proof.
  intros [Hlo Hhi]. unfold fold_bearing, fltb, fsub. cbn [fneg fadd].
  destruct (Rlt_dec 90 b); [eexists; split; [reflexivity | lra] |].
  destruct (Rlt_dec b (-90)); eexists; (split; [reflexivity | lra]).
Qed.

(** X5: the steering angle the script computes is always a real number in
    [-90, 90]: for every finite user latitude and longitude, and 0 when
    either coordinate is None. *)
Theorem beam_steering_range :
  (forall user_lat user_lon : R,
     exists r, beam_steering (PyFloat (Fin user_lat)) (PyFloat (Fin user_lon))
               = Fin r /\ -90 <= r <= 90) /\
  (forall v, beam_steering PyNone v = Fin 0) /\
  (forall v, beam_steering v PyNone = Fin 0).
Proof.
  split; [| split].
  - intros a b. unfold beam_steering.
    destruct (bearing_finite a b) as [d0 [-> Hd]].
    now apply fold_bearing_finite.
  - reflexivity.
  - intros [| x]; reflexivity.
Qed.

Lemma bearing_value (user_lat user_lon : R) :
  bearing (Fin user_lat) (Fin user_lon) =
  Fin (arctan2R (user_lon - 771025 / 10000) (user_lat - 287041 / 10000) *
       (180 / PI)).
Proof. reflexivity. Qed.

Lemma arctan2R_axes (t : R) :
  0 < t ->
  arctan2R 0 t = 0 /\ arctan2R 0 (- t) = PI /\
  arctan2R t 0 = PI / 2 /\ arctan2R (- t) 0 = - (PI / 2).
Proof.
  intros Ht. unfold arctan2R. repeat split.
  - destruct (Rlt_dec 0 t); [| lra].
    unfold Rdiv. now rewrite Rmult_0_l, atan_0.
  - destruct (Rlt_dec 0 (- t)); [lra |].
    destruct (Rlt_dec (- t) 0); [| lra].
    destruct (Rlt_dec 0 0); [lra |].
    unfold Rdiv. rewrite Rmult_0_l, atan_0. ring.
  - destruct (Rlt_dec 0 0); [lra |]. destruct (Rlt_dec 0 t); [reflexivity | lra].
  - destruct (Rlt_dec 0 0); [lra |]. destruct (Rlt_dec 0 (- t)); [lra |].
    destruct (Rlt_dec (- t) 0); [reflexivity | lra].
Qed.

(** X6: the four cardinal directions.  A user due north of the base station
    and a user due south of it both get the steering angle 0; a user due
    east gets 90 and a user due west -90. *)
Theorem beam_steering_cardinal (t : R) :
  0 < t ->
  beam_steering (PyFloat (Fin (287041 / 10000 + t)))
                (PyFloat (Fin (771025 / 10000))) = Fin 0 /\
  beam_steering (PyFloat (Fin (287041 / 10000 - t)))
                (PyFloat (Fin (771025 / 10000))) = Fin 0 /\
  beam_steering (PyFloat (Fin (287041 / 10000)))
                (PyFloat (Fin (771025 / 10000 + t))) = Fin 90 /\
  beam_steering (PyFloat (Fin (287041 / 10000)))
                (PyFloat (Fin (771025 / 10000 - t))) = Fin (-90).
Proof.
  intros Ht. destruct (arctan2R_axes t Ht) as [A1 [A2 [A3 A4]]].
  assert (HP := PI_RGT_0).
  assert (E : PI * (180 / PI) = 180) by (field; lra).
  unfold beam_steering. rewrite !bearing_value.
  replace (771025 / 10000 - 771025 / 10000) with 0 by ring.
  replace (287041 / 10000 - 287041 / 10000) with 0 by ring.
  replace (287041 / 10000 + t - 287041 / 10000) with t by ring.
  replace (287041 / 10000 - t - 287041 / 10000) with (- t) by ring.
  replace (771025 / 10000 + t - 771025 / 10000) with t by ring.
  replace (771025 / 10000 - t - 771025 / 10000) with (- t) by ring.
  rewrite A1, A2, A3, A4.
  replace (0 * (180 / PI)) with 0 by ring.
  replace (PI / 2 * (180 / PI)) with 90 by lra.
  replace (- (PI / 2) * (180 / PI)) with (-90) by lra.
  rewrite E.
  unfold fold_bearing, fltb, fsub. cbn [fneg fadd].
  repeat split.
  - destruct (Rlt_dec 90 0); [lra |].
    destruct (Rlt_dec 0 (-90)); [lra | reflexivity].
  - destruct (Rlt_dec 90 180); [| lra]. f_equal. ring.
  - destruct (Rlt_dec 90 90); [lra |].
    destruct (Rlt_dec 90 (-90)); [lra | reflexivity].
  - destruct (Rlt_dec 90 (-90)); [lra |].
    destruct (Rlt_dec (-90) (-90)); [lra | reflexivity].
Qed.

Lemma beam_steering_cardinal_witness :
  beam_steering (PyFloat (Fin (287041 / 10000 + 1)))
                (PyFloat (Fin (771025 / 10000))) = Fin 0 /\
  beam_steering (PyFloat (Fin (287041 / 10000 - 1)))
                (PyFloat (Fin (771025 / 10000))) = Fin 0 /\
  beam_steering (PyFloat (Fin (287041 / 10000)))
                (PyFloat (Fin (771025 / 10000 + 1))) = Fin 90 /\
  beam_steering (PyFloat (Fin (287041 / 10000)))
                (PyFloat (Fin (771025 / 10000 - 1))) = Fin (-90).
Proof.
  apply (beam_steering_cardinal 1). lra.
Defined.

(** ** The sweep of the script *)

Lemma length_set_last (l : list f64) (v : f64) :
  List.length (set_last l v) = List.length l.
Proof.
  induction l as [| x [| y t] IH]; cbn [set_last List.length] in *;
    try reflexivity.
  now rewrite IH.
Qed.

Lemma np_linspace_length (start stop : f64) (num : Z) :
  (0 <= num)%Z ->
  exists l, np_linspace start stop num = Ok l /\
            List.length l = Z.to_nat num.
Proof.
  intros Hn. unfold np_linspace.
  destruct (Z.ltb_spec num 0); [lia |].
  eexists. split; [reflexivity |].
  assert (L : forall f : f64 -> f64,
             List.length (map f (map of_int (arange num))) = Z.to_nat num)
    by (intros f; now rewrite !length_map, length_arange).
  destruct (1 <? num)%Z; [rewrite length_set_last |];
    rewrite length_map;
    destruct (0 <? num - 1)%Z; try destruct (fis_zero _); apply L.
Qed.







(** ** The run of the script *)


(** The run once the location is read. *)
Lemma demomimo_after_location (location : option pydict)
  (Nt Nr snr_input : Z) (w : string) (user_lat user_lon : pyval)
  (sweep resp resp' : list f64) :
  read_location location = Finished (user_lat, user_lon) ->
  np_linspace (Fin (-90)) (Fin 90) 500 = Ok sweep ->
  mimo_array_response Nt Nr (beam_steering user_lat user_lon) sweep w =
  Ok resp ->
  mimo_array_response 8 4 (beam_steering user_lat user_lon) sweep w =
  Ok resp' ->
  demomimo location Nt Nr snr_input w =
  Finished (ScriptState (beam_steering user_lat user_lon)
                        (map_data user_lat user_lon) sweep resp resp'
                        (effective_snr_dB snr_input Nt Nr)
                        (capacity snr_input Nt Nr)).
Proof.
  intros E1 E2 E3 E4. unfold demomimo.
  rewrite E1. cbn [and_then fst snd]. rewrite E2. cbn [lift_result and_then].
  rewrite E3. cbn [lift_result and_then]. rewrite E4. reflexivity.
Qed.

Lemma mimo_array_response_returns (Nt Nr : Z) (theta_user : f64)
  (sweep : list f64) (w : string) :
  (0 <= Nt)%Z -> (0 <= Nr)%Z -> sweep <> [] ->
  exists out, mimo_array_response Nt Nr theta_user sweep w = Ok out /\
              List.length out = List.length sweep.
Proof.
  intros HNt HNr Hne.
  destruct (raises_not_ok (mimo_array_response Nt Nr theta_user sweep w))
    as [out E].
  - rewrite mimo_array_response_raises.
    intros [H | [_ [H | H]]]; [contradiction | lia | lia].
  - exists out. split; [exact E |].
    eapply mimo_array_response_length; exact E.
Qed.

(** X7: the script finishes, with 500 sweep angles and 500 values in each
    of the two curves, for every antenna count from 0 to the maximum of its
    slider (32 and 16), every input SNR of the slider (0 to 30 dB), every
    window type and every location that holds a "longitude" key whenever
    its latitude counts as true. *)
Theorem demomimo_finishes (location : option pydict) (Nt Nr snr_input : Z)
  (w : string) :
  (0 <= Nt <= 32)%Z -> (0 <= Nr <= 16)%Z -> (0 <= snr_input <= 30)%Z ->
  (forall dict, location = Some dict ->
                truthy (dict_get dict "latitude") = true ->
                dict_lookup "longitude" dict <> None) ->
  exists st,
    demomimo location Nt Nr snr_input w = Finished st /\
    List.length (theta st) = 500%nat /\
    List.length (resp_mimo st) = 500%nat /\
    List.length (resp_ref st) = 500%nat.
Proof.
  intros [HNt _] [HNr _] _ Hlon.
  assert (Hloc : exists user_lat user_lon,
             read_location location = Finished (user_lat, user_lon)).
  { unfold read_location. destruct location as [dict |]; [| eauto].
    destruct (truthy_dict (Some dict) && truthy (dict_get dict "latitude"))
      eqn:Hc; [| eauto].
    apply andb_true_iff in Hc as [_ Hlat].
    specialize (Hlon dict eq_refl Hlat).
    unfold dict_item.
    assert (Hk : dict_lookup "latitude" dict <> None).
    { unfold dict_get in Hlat.
      destruct (dict_lookup "latitude" dict); [discriminate | discriminate]. }
    destruct (dict_lookup "latitude" dict); [| contradiction].
    destruct (dict_lookup "longitude" dict); [eauto | contradiction]. }
  destruct Hloc as [user_lat [user_lon Hloc]].
  destruct (np_linspace_length (Fin (-90)) (Fin 90) 500) as [sweep [Hs Ls]];
    [lia |].
  assert (Hne : sweep <> []) by (intros ->; discriminate).
  destruct (mimo_array_response_returns Nt Nr
              (beam_steering user_lat user_lon) sweep w HNt HNr Hne)
    as [resp [E3 L3]].
  destruct (mimo_array_response_returns 8 4
              (beam_steering user_lat user_lon) sweep w) as [resp' [E4 L4]];
    [lia | lia | exact Hne |].
  eexists. split.
  - eapply demomimo_after_location; eassumption.
  - cbn [theta resp_mimo resp_ref]. rewrite L3, L4, Ls. auto.
Qed.

Lemma demomimo_finishes_witness :
  exists st,
    demomimo (Some [("latitude"%string, PyFloat (Fin 13));
                    ("longitude"%string, PyFloat (Fin 80))])
             8 4 10 "Hamming" = Finished st /\
    List.length (theta st) = 500%nat /\
    List.length (resp_mimo st) = 500%nat /\
    List.length (resp_ref st) = 500%nat.
Proof.
  apply (demomimo_finishes
           (Some [("latitude"%string, PyFloat (Fin 13));
                  ("longitude"%string, PyFloat (Fin 80))])
           8 4 10 "Hamming"); [lia | lia | lia |].
  intros dict H _. injection H as <-. discriminate.
Defined.

(** X8: a location whose latitude counts as true but that holds no
    "longitude" key stops the script with KeyError('longitude'), whatever
    the widgets say. *)
Theorem demomimo_key_error (dict : pydict) (Nt Nr snr_input : Z)
  (w : string) :
  truthy (dict_get dict "latitude") = true ->
  dict_lookup "longitude" dict = None ->
  demomimo (Some dict) Nt Nr snr_input w = Raised (KeyError "longitude").
Proof.
  intros Hlat Hlon. unfold demomimo, read_location.
  assert (Hd : truthy_dict (Some dict) = true).
  { destruct dict; [discriminate Hlat | reflexivity]. }
  rewrite Hd, Hlat. cbn [andb]. unfold dict_item. rewrite Hlon.
  unfold dict_get in Hlat.
  destruct (dict_lookup "latitude" dict); [reflexivity | discriminate].
Qed.

Lemma demomimo_key_error_witness :
  demomimo (Some [("latitude"%string, PyFloat (Fin 13))]) 8 4 10 "Hamming" =
  Raised (KeyError "longitude").
Proof.
  apply (demomimo_key_error [("latitude"%string, PyFloat (Fin 13))]).
  - cbn. unfold fis_zero. destruct (Req_dec_T 13 0); [lra | reflexivity].
  - reflexivity.
Defined.

(** X9: a location on the equator is ignored.  When the latitude is 0.0
    (or None, or missing) the run is the run without any location: steering
    angle 0, the base station alone on the map, the same curves. *)
Theorem zero_latitude_ignored (dict : pydict) (Nt Nr snr_input : Z)
  (w : string) :
  dict_get dict "latitude" = PyFloat (Fin 0) \/
  dict_get dict "latitude" = PyNone ->
  demomimo (Some dict) Nt Nr snr_input w = demomimo None Nt Nr snr_input w.
Proof.
  intros H.
  assert (Hf : truthy (dict_get dict "latitude") = false).
  { destruct H as [-> | ->]; [| reflexivity].
    cbn. destruct (Req_dec_T 0 0); [reflexivity | contradiction]. }
  unfold demomimo, read_location. rewrite Hf, andb_false_r. reflexivity.
Qed.

Lemma zero_latitude_ignored_witness :
  demomimo (Some [("latitude"%string, PyFloat (Fin 0));
                  ("longitude"%string, PyFloat (Fin 100))])
           8 4 10 "Hamming" =
  demomimo None 8 4 10 "Hamming".
Proof.
  apply (zero_latitude_ignored
           [("latitude"%string, PyFloat (Fin 0));
            ("longitude"%string, PyFloat (Fin 100))]).
  left. reflexivity.
Defined.

(** ** The performance metrics *)

Lemma ln_2_pos : 0 < ln 2.
Proof. assert (H := ln_lt_2). lra. Qed.

Lemma snr_effective_finite (snr_input Nt Nr : Z) :
  snr_effective snr_input Nt Nr =
  Fin (Rpower 10 (IZR snr_input / 10) * IZR Nt * IZR Nr).
Proof.
  unfold snr_effective, snr_linear, of_int, fdiv.
  destruct (Req_dec_T 10 0) as [H | _]; [lra | reflexivity].
Qed.

Lemma Rpower_10_pos (x : R) : 0 < Rpower 10 x.
Proof. unfold Rpower. apply exp_pos. Qed.

Lemma snr_effective_pos (snr_input Nt Nr : Z) :
  (1 <= Nt)%Z -> (1 <= Nr)%Z ->
  0 < Rpower 10 (IZR snr_input / 10) * IZR Nt * IZR Nr.
Proof.
  intros HNt HNr.
  assert (H1 : 1 <= IZR Nt) by now apply IZR_le.
  assert (H2 : 1 <= IZR Nr) by now apply IZR_le.
  assert (HP := Rpower_10_pos (IZR snr_input / 10)).
  apply Rmult_lt_0_compat; [apply Rmult_lt_0_compat |]; lra.
Qed.

(** X11: for the values the sliders give (input SNR 0 to 30 dB, up to 32
    transmit and 16 receive antennas) the effective SNR the script shows is
    the input SNR plus the array gain 10 log10(Nt Nr).  (Exact arithmetic:
    the doubles of the script agree with it up to rounding.) *)
Theorem effective_snr_is_input_plus_array_gain (snr_input Nt Nr : Z) :
  (0 <= snr_input <= 30)%Z -> (1 <= Nt <= 32)%Z -> (1 <= Nr <= 16)%Z ->
  effective_snr_dB snr_input Nt Nr =
  Fin (IZR snr_input + 10 * (ln (IZR (Nt * Nr)) / ln 10)).
Proof.
  intros _ [HNt _] [HNr _]. unfold effective_snr_dB.
  rewrite snr_effective_finite.
  assert (Hv := snr_effective_pos snr_input Nt Nr HNt HNr).
  assert (H1 : 0 < IZR Nt) by (apply IZR_lt; lia).
  assert (H2 : 0 < IZR Nr) by (apply IZR_lt; lia).
  assert (HP := Rpower_10_pos (IZR snr_input / 10)).
  assert (H10 := ln_10_pos).
  unfold flog10.
  destruct (Rlt_dec _ 0) as [H | _]; [lra |].
  destruct (Req_dec_T _ 0) as [H | _]; [lra |].
  cbn [fmul]. f_equal.
  rewrite Rmult_assoc, ln_mult by (try apply Rmult_lt_0_compat; lra).
  rewrite mult_IZR. unfold Rpower at 1. rewrite ln_exp.
  field. lra.
Qed.

Lemma effective_snr_is_input_plus_array_gain_witness :
  effective_snr_dB 10 8 4 = Fin (IZR 10 + 10 * (ln (IZR (8 * 4)) / ln 10)).
Proof.
  apply (effective_snr_is_input_plus_array_gain 10 8 4); lia.
Defined.

(** X12: for the values the sliders give (input SNR 0 to 30 dB, up to 32
    transmit and 16 receive antennas) the channel capacity the script shows
    is a real number, at least 1 bit/s/Hz, and it does not decrease when the
    input SNR, the number of transmit antennas or the number of receive
    antennas grows.  (Exact arithmetic.) *)
Theorem capacity_monotone (snr_input snr_input' Nt Nt' Nr Nr' : Z) :
  (0 <= snr_input <= snr_input')%Z -> (snr_input' <= 30)%Z ->
  (1 <= Nt <= Nt')%Z -> (Nt' <= 32)%Z ->
  (1 <= Nr <= Nr')%Z -> (Nr' <= 16)%Z ->
  exists c c',
    capacity snr_input Nt Nr = Fin c /\
    capacity snr_input' Nt' Nr' = Fin c' /\
    1 <= c <= c'.
Proof.
  intros [Hs0 Hs] _ [HNt HNt'] _ [HNr HNr'] _.
  assert (Hv := snr_effective_pos snr_input Nt Nr HNt HNr).
  assert (Hv' : 0 < Rpower 10 (IZR snr_input' / 10) * IZR Nt' * IZR Nr')
    by (apply snr_effective_pos; lia).
  assert (A1 : 1 <= IZR Nt) by now apply IZR_le.
  assert (A2 : IZR Nt <= IZR Nt') by now apply IZR_le.
  assert (B1 : 1 <= IZR Nr) by now apply IZR_le.
  assert (B2 : IZR Nr <= IZR Nr') by now apply IZR_le.
  assert (P1 : 1 <= Rpower 10 (IZR snr_input / 10)).
  { rewrite <- (Rpower_O 10) by lra.
    apply Rle_Rpower; [lra |]. apply IZR_le in Hs0. lra. }
  assert (Hge : 1 <= Rpower 10 (IZR snr_input / 10) * IZR Nt * IZR Nr).
  { assert (Q : 1 * 1 <= Rpower 10 (IZR snr_input / 10) * IZR Nt)
      by (apply Rmult_le_compat; lra).
    replace 1 with (1 * 1 * 1) by ring.
    apply Rmult_le_compat; lra. }
  assert (Hle : Rpower 10 (IZR snr_input / 10) * IZR Nt * IZR Nr <=
                Rpower 10 (IZR snr_input' / 10) * IZR Nt' * IZR Nr').
  { assert (P : Rpower 10 (IZR snr_input / 10) <=
                Rpower 10 (IZR snr_input' / 10)).
    { apply Rle_Rpower; [lra |]. apply IZR_le in Hs. lra. }
    apply Rmult_le_compat; try lra.
    - apply Rmult_le_pos; lra.
    - apply Rmult_le_compat; lra. }
  assert (H2 := ln_2_pos).
  assert (Hi : 0 < / ln 2) by now apply Rinv_0_lt_compat.
  unfold capacity. rewrite !snr_effective_finite. cbn [fadd]. unfold flog2.
  destruct (Rlt_dec (1 + _) 0) as [H | _]; [lra |].
  destruct (Req_dec_T (1 + _) 0) as [H | _]; [lra |].
  destruct (Rlt_dec (1 + _) 0) as [H | _]; [lra |].
  destruct (Req_dec_T (1 + _) 0) as [H | _]; [lra |].
  eexists. eexists. split; [reflexivity |]. split; [reflexivity |].
  assert (L1 : ln 2 <= ln (1 + Rpower 10 (IZR snr_input / 10) * IZR Nt * IZR Nr)).
  { destruct Hge as [Hlt | Heq].
    - left. apply ln_increasing; lra.
    - rewrite <- Heq. replace (1 + 1) with 2 by ring. lra. }
  assert (L2 : ln (1 + Rpower 10 (IZR snr_input / 10) * IZR Nt * IZR Nr) <=
               ln (1 + Rpower 10 (IZR snr_input' / 10) * IZR Nt' * IZR Nr')).
  { destruct Hle as [Hlt | Heq]; [| rewrite Heq; lra].
    left. apply ln_increasing; lra. }
  unfold Rdiv. split.
  - assert (E1 : ln 2 * / ln 2 = 1) by (field; lra).
    apply Rle_trans with (ln 2 * / ln 2); [lra |].
    apply Rmult_le_compat_r; lra.
  - apply Rmult_le_compat_r; lra.
Qed.

Lemma capacity_monotone_witness :
  exists c c',
    capacity 10 8 4 = Fin c /\ capacity 20 16 8 = Fin c' /\ 1 <= c <= c'.
Proof.
  apply (capacity_monotone 10 20 8 16 4 8); lia.
Defined.

(** ** The plotted curves have a 0 dB peak *)

Lemma sin_abs_le (x : R) : Rabs (sin x) <= Rabs x.
Proof.
  assert (HP : 3 < PI) by (assert (H := PI2_3_2); lra).
  assert (G : forall y, 0 < y -> - y <= sin y < y).
  { intros y Hy. split; [| now apply sin_lt_x].
    destruct (Rle_dec y PI) as [Hle | Hgt].
    - assert (0 <= sin y) by (apply sin_ge_0; lra). lra.
    - assert (B := SIN_bound y). lra. }
  destruct (Rtotal_order x 0) as [Hx | [-> | Hx]].
  - destruct (G (- x)) as [G1 G2]; [lra |]. rewrite sin_neg in *.
    rewrite (Rabs_left x Hx). apply Rabs_le. lra.
  - rewrite sin_0, Rabs_R0. lra.
  - destruct (G x Hx) as [G1 G2].
    rewrite (Rabs_right x) by lra. apply Rabs_le. lra.
Qed.

Lemma sin_lipschitz (p q : R) : Rabs (sin p - sin q) <= Rabs (p - q).
Proof.
  rewrite form4, !Rabs_mult.
  assert (Hc : Rabs (cos ((p + q) / 2)) <= 1)
    by (apply Rabs_le; apply COS_bound).
  assert (Hs := sin_abs_le ((p - q) / 2)).
  assert (H2 : Rabs 2 = 2) by (apply Rabs_right; lra).
  assert (Hh : Rabs ((p - q) / 2) = Rabs (p - q) / 2).
  { unfold Rdiv. rewrite Rabs_mult. f_equal. apply Rabs_right.
    lra. }
  assert (P1 := Rabs_pos (cos ((p + q) / 2))).
  assert (P2 := Rabs_pos (sin ((p - q) / 2))).
  rewrite H2. rewrite Hh in Hs. nra.
Qed.

Lemma Csum_cons (z : C) (l : list C) : Csum (z :: l) = Cadd z (Csum l).
Proof. reflexivity. Qed.

Lemma Csum_app (l l' : list C) : Csum (l ++ l') = Cadd (Csum l) (Csum l').
Proof.
  induction l as [| z l IH]; cbn [app].
  - destruct (Csum l') as [x y]. unfold Cadd, Csum. cbn. f_equal; ring.
  - rewrite !Csum_cons, IH. unfold Cadd. cbn [fst snd]. f_equal; ring.
Qed.

Lemma Csum_scale (z : C) (l : list C) :
  Csum (map (Cmul z) l) = Cmul z (Csum l).
Proof.
  induction l as [| x l IH]; cbn [map].
  - unfold Csum, Cmul. cbn. f_equal; ring.
  - rewrite !Csum_cons, IH. unfold Cmul, Cadd. cbn [fst snd]. f_equal; ring.
Qed.

Lemma Csum_outer {A B : Type} (f : A -> C) (g : B -> C) (P : list A)
  (Q : list B) :
  Csum (concat (map (fun p => map (fun q => Cmul (f p) (g q)) Q) P)) =
  Cmul (Csum (map f P)) (Csum (map g Q)).
Proof.
  induction P as [| p P IH]; cbn [map concat].
  - unfold Csum at 1 2, Cmul. cbn. f_equal; ring.
  - rewrite Csum_app, IH, Csum_cons.
    rewrite <- (map_map g (Cmul (f p))), Csum_scale.
    unfold Cmul, Cadd. cbn [fst snd]. f_equal; ring.
Qed.

Lemma term_factor (ang theta_user : R) (p q : R * Z) :
  term ang theta_user p q =
  Cmul (beat ang theta_user p) (Cconj (beat ang theta_user q)).
Proof.
  unfold term, beat.
  destruct (steer ang p) as [a1 a2], (steer ang q) as [b1 b2],
    (steer theta_user p) as [c1 c2], (steer theta_user q) as [d1 d2].
  unfold Cmul, Cconj. cbn [fst snd]. f_equal; ring.
Qed.

(** The Frobenius sum is the product of one sum per array. *)
Lemma terms_factor (win_tx win_rx : list R) (Nt Nr : Z) (ang theta_user : R) :
  Csum (terms win_tx win_rx Nt Nr ang theta_user) =
  Cmul (Csum (map (beat ang theta_user) (combine win_rx (arange Nr))))
       (Cconj (Csum (map (beat ang theta_user)
                         (combine win_tx (arange Nt))))).
Proof.
  unfold terms.
  rewrite <- Cconj_Csum, map_map.
  rewrite <- (Csum_outer (beat ang theta_user)
                         (fun q => Cconj (beat ang theta_user q))).
  do 2 f_equal. apply map_ext; intros p. apply map_ext; intros q.
  apply term_factor.
Qed.

Lemma fst_le_Cmod (z : C) : fst z <= Cmod z.
Proof.
  assert (H := Cmod_sqr z). assert (H0 := Cmod_nonneg z).
  destruct (Rle_dec (fst z) 0) as [Hn | Hp]; [lra |].
  apply Rnot_le_lt in Hp.
  apply Rsqr_incr_0_var; [| exact H0]. unfold Rsqr. nra.
Qed.

Lemma fst_Csum (l : list C) : fst (Csum l) = Rsum (map fst l).
Proof.
  induction l as [| z l IH]; [reflexivity |].
  cbn [map]. rewrite Csum_cons, Rsum_cons, <- IH. reflexivity.
Qed.

Lemma fst_beat (ang theta_user : R) (p : R * Z) :
  fst (beat ang theta_user p) =
  fst p * fst p *
  cos (PI * IZR (snd p) *
       (sin (ang * (PI / 180)) - sin (theta_user * (PI / 180)))).
Proof.
  unfold beat, steer, Cmul, Cconj. cbn [fst snd].
  replace (PI * IZR (snd p) *
           (sin (ang * (PI / 180)) - sin (theta_user * (PI / 180))))
    with (phase_angle (snd p) ang - phase_angle (snd p) theta_user)
    by (unfold phase_angle; field).
  rewrite cos_minus. ring.
Qed.

Lemma cos_beat_pos (n : Z) (a u : R) :
  (0 <= n <= 31)%Z -> Rabs (a - u) <= 180 / 499 ->
  0 < cos (PI * IZR n * (sin (a * (PI / 180)) - sin (u * (PI / 180)))).
Proof.
  intros [Hn0 Hn1] Hau.
  assert (HP := PI_RGT_0). assert (HP4 := PI_4).
  assert (N0 : 0 <= IZR n) by now apply IZR_le.
  assert (N1 : IZR n <= 31) by now apply IZR_le.
  set (dl := sin (a * (PI / 180)) - sin (u * (PI / 180))).
  assert (D : Rabs dl <= PI / 499).
  { unfold dl. eapply Rle_trans; [apply sin_lipschitz |].
    replace (a * (PI / 180) - u * (PI / 180)) with ((a - u) * (PI / 180))
      by ring.
    rewrite Rabs_mult, (Rabs_right (PI / 180)) by lra.
    assert (P := Rabs_pos (a - u)). nra. }
  assert (D' : - (PI / 499) <= dl <= PI / 499).
  { unfold Rabs in D. destruct (Rcase_abs dl); lra. }
  assert (B1 : IZR n * dl <= IZR n * (PI / 499))
    by (apply Rmult_le_compat_l; lra).
  assert (B2 : IZR n * - (PI / 499) <= IZR n * dl)
    by (apply Rmult_le_compat_l; lra).
  assert (B3 : IZR n * (PI / 499) <= 31 * (4 / 499)).
  { apply Rmult_le_compat; lra. }
  assert (B : - (1 / 2) < IZR n * dl < 1 / 2) by lra.
  replace (PI * IZR n * dl) with (PI * (IZR n * dl)) by ring.
  apply cos_gt_0; nra.
Qed.

Lemma In_arange_inv (n N : Z) : In n (arange N) -> (0 <= n < N)%Z.
Proof.
  unfold arange. intros H. apply in_map_iff in H as [m [<- Hm]].
  apply in_seq in Hm. lia.
Qed.

Lemma beat_sum_pos (P : list (R * Z)) (a u : R) :
  (forall p, In p P -> (0 <= snd p <= 31)%Z) ->
  Rabs (a - u) <= 180 / 499 ->
  0 < sumsq (map fst P) ->
  0 < fst (Csum (map (beat a u) P)).
Proof.
  intros Hn Hau. rewrite fst_Csum, map_map.
  assert (G : forall p, In p P ->
              0 < cos (PI * IZR (snd p) *
                       (sin (a * (PI / 180)) - sin (u * (PI / 180)))))
    by (intros p Hp; apply cos_beat_pos; auto).
  clear Hn. induction P as [| p P IH]; cbn [map].
  - change (sumsq []) with 0. lra.
  - rewrite sumsq_cons, Rsum_cons, fst_beat. intros Hs.
    assert (Hc := G p (or_introl eq_refl)).
    assert (Hrest : 0 <= Rsum (map (fun x => fst (beat a u x)) P)).
    { apply Rsum_nonneg, Forall_map, Forall_forall. intros q Hq.
      rewrite fst_beat. assert (Hq' := G q (or_intror Hq)).
      assert (0 <= fst q * fst q) by nra. nra. }
    destruct (Req_dec_T (fst p) 0) as [E | NE].
    + rewrite E in *. assert (0 < sumsq (map fst P)) by lra.
      assert (IH' := IH (fun q Hq => G q (or_intror Hq)) H). lra.
    + assert (0 < fst p * fst p) by nra.
      assert (0 < fst p * fst p *
                  cos (PI * IZR (snd p) *
                       (sin (a * (PI / 180)) - sin (u * (PI / 180)))))
        by now apply Rmult_lt_0_compat.
      lra.
Qed.

(** A sweep angle within one step of the steering angle has a non-zero
    gain, for arrays of up to 32 antennas. *)
Lemma gain_near_positive (ut ur : list R) (Nt Nr : Z) (a u : R) :
  (Nt <= 32)%Z -> (Nr <= 32)%Z ->
  sumsq ut = 1 -> sumsq ur = 1 ->
  List.length ut = Z.to_nat Nt -> List.length ur = Z.to_nat Nr ->
  Rabs (a - u) <= 180 / 499 ->
  0 < Cmod (Csum (terms ut ur Nt Nr a u)).
Proof.
  intros HNt HNr St Sr Lt Lr Hau.
  rewrite terms_factor, Cmod_mul, Cmod_conj.
  assert (B : forall w N, (N <= 32)%Z -> sumsq w = 1 ->
              List.length w = Z.to_nat N ->
              0 < Cmod (Csum (map (beat a u) (combine w (arange N))))).
  { intros w N HN Sw Lw.
    eapply Rlt_le_trans; [| apply fst_le_Cmod].
    apply beat_sum_pos; [| exact Hau |].
    - intros [x n] Hp. apply in_combine_r, In_arange_inv in Hp.
      cbn [snd]. lia.
    - rewrite map_fst_combine by now rewrite length_arange. lra. }
  apply Rmult_lt_0_compat; now apply B.
Qed.


(** The last line of the function on finite gains, one of them positive. *)
Lemma dB_of_positive_gains (gs : list R) (g : R) :
  Forall (fun x => 0 <= x) gs -> In g gs -> 0 < g ->
  exists M,
    np_max (map Fin gs) = Ok (Fin M) /\
    Forall at_most_0dB (map (to_dB (Fin M)) (map Fin gs)) /\
    In (Fin 0) (map (to_dB (Fin M)) (map Fin gs)).
Proof.
  intros H0 Hin Hg. destruct gs as [| g0 gl]; [contradiction |].
  set (M := fold_left Rmax gl g0).
  assert (HM : In M (g0 :: gl)) by apply fold_Rmax_In.
  assert (Hub : Forall (fun y => y <= M) (g0 :: gl)).
  { constructor; [apply fold_Rmax_ge_acc | apply fold_Rmax_upper]. }
  assert (Hpos : 0 < M).
  { rewrite Forall_forall in Hub. specialize (Hub g Hin). lra. }
  exists M. apply dB_of_gains; [exact Hpos | exact HM |].
  rewrite Forall_forall in *. intros x Hx. split; auto.
Qed.

(** For windows of non-zero norm on up to 32 antennas, a finite sweep with
    an angle within one step of the steering angle gives a response whose
    maximum is 0 dB. *)
Lemma response_normalized (Nt Nr : Z) (w : string) (u a : R)
  (angles : list R) :
  (1 <= Nt <= 32)%Z -> (1 <= Nr <= 32)%Z ->
  degenerate w Nt = false -> degenerate w Nr = false ->
  In a angles -> Rabs (a - u) <= 180 / 499 ->
  exists out,
    mimo_array_response Nt Nr (Fin u) (map Fin angles) w = Ok out /\
    np_max out = Ok (Fin 0) /\
    Forall at_most_0dB out.
Proof.
  intros [HNt HNt'] [HNr HNr'] Dt Dr Hin Hau.
  destruct (windowVector_finite w Nt HNt Dt) as [_ [St Lt]].
  destruct (windowVector_finite w Nr HNr Dr) as [_ [Sr Lr]].
  assert (Pt := raw_coefs_sumsq_pos w Nt HNt Dt).
  assert (Pr := raw_coefs_sumsq_pos w Nr HNr Dr).
  set (ut := unit_coefs (raw_coefs w Nt)) in *.
  set (ur := unit_coefs (raw_coefs w Nr)) in *.
  set (gs := gains ut ur Nt Nr u angles).
  assert (Hg := gain_near_positive ut ur Nt Nr a u HNt' HNr' St Sr Lt Lr Hau).
  assert (Hgin : In (Cmod (Csum (terms ut ur Nt Nr a u))) gs).
  { unfold gs, gains. apply in_map_iff. exists a. now split. }
  assert (H0 : Forall (fun x => 0 <= x) gs).
  { unfold gs, gains. apply Forall_map, Forall_forall. intros x _.
    apply Cmod_nonneg. }
  destruct (dB_of_positive_gains gs _ H0 Hgin Hg) as [M [Hmax [Hle Hz]]].
  assert (E : response_of (map Fin (raw_coefs w Nt)) (map Fin (raw_coefs w Nr))
                          Nt Nr (Fin u) (map Fin angles) =
              map Fin gs) by (apply response_of_finite; lra).
  exists (map (to_dB (Fin M)) (map Fin gs)). split; [| split].
  - rewrite <- E. apply mimo_array_response_ok.
    + apply raw_window_ok; lia.
    + apply raw_window_ok; lia.
    + rewrite E. exact Hmax.
  - now apply np_max_0dB.
  - exact Hle.
Qed.





(** ** An array without antennas *)

Lemma gain_no_rx (win_tx : list f64) (Nt Nr : Z) (H : list (list complex))
  (ang : f64) :
  gain win_tx [] Nt Nr H ang = Fin 0.
Proof.
  unfold gain, channel, correlation, np_sum, np_outer.
  change (steering_vector [] Nr ang) with (@nil complex).
  cbn [map zip_with concat csum fold_right].
  unfold cabs, czero, fhypot. cbn [re im]. f_equal.
  replace (0 * 0 + 0 * 0) with 0 by ring. apply sqrt_0.
Qed.

Lemma raw_window_empty (w : string) (N : Z) (win : list f64) :
  (N <= 0)%Z -> raw_window w N = Ok win -> win = [].
Proof.
  intros HN E. apply raw_window_finite in E. subst win.
  assert (L := length_raw_coefs w N).
  destruct (raw_coefs w N); [reflexivity | cbn in L; lia].
Qed.

Lemma np_max_all_zero (l : list f64) :
  l <> [] -> np_max (map (fun _ => Fin 0) l) = Ok (Fin 0).
Proof.
  destruct l as [| a l]; [contradiction |]. intros _.
  cbn [map np_max]. f_equal.
  induction l as [| b l IH]; [reflexivity |].
  cbn [map fold_left]. rewrite fmaximum_Fin.
  unfold Rmax. destruct (Rle_dec 0 0); exact IH.
Qed.

(** X14: an array without antennas.  When Nt or Nr is zero (or negative,
    with a Hamming, Hanning or Blackman window, which numpy returns empty)
    the call does not fail: every gain is 0, the division by their maximum
    is 0/0, and the result is NaN at every sweep angle. *)
Theorem no_antenna_all_nan (Nt Nr : Z) (theta_user : f64)
  (sweep : list f64) (w : string) :
  (Nt <= 0)%Z \/ (Nr <= 0)%Z ->
  recognized_cosine w \/ ((0 <= Nt)%Z /\ (0 <= Nr)%Z) ->
  sweep <> [] ->
  mimo_array_response Nt Nr theta_user sweep w =
  Ok (map (fun _ => NaN) sweep).
Proof.
  intros Hz Hw Hne.
  assert (Hok : forall N, exists win, raw_window w N = Ok win \/
                                       ((N < 0)%Z /\ ~ recognized_cosine w)).
  { intros N. destruct (raw_window w N) as [win | e] eqn:E.
    - exists win. now left.
    - exists []. right.
      assert (Hr : raises (raw_window w N))
        by (rewrite E; eexists; reflexivity).
      apply raw_window_raises in Hr. tauto. }
  destruct (Hok Nt) as [wt [Et | [Ht Hc]]]; [| destruct Hw; [tauto | lia]].
  destruct (Hok Nr) as [wr [Er | [Hr Hc]]]; [| destruct Hw; [tauto | lia]].
  unfold mimo_array_response. rewrite Et, Er. cbn [bind].
  assert (G : forall H ang,
             gain (normalize wt) (normalize wr) Nt Nr H ang = Fin 0).
  { intros H ang. destruct Hz as [Hz | Hz].
    - rewrite (raw_window_empty w Nt wt Hz Et). apply gain_no_tx.
    - rewrite (raw_window_empty w Nr wr Hz Er). apply gain_no_rx. }
  rewrite (map_ext _ (fun _ => Fin 0)) by (intros a; apply G).
  rewrite np_max_all_zero by exact Hne. cbn [bind]. rewrite map_map.
  f_equal. apply map_ext. intros _. apply to_dB_zero_max.
Qed.

Lemma no_antenna_all_nan_witness :
  mimo_array_response 0 4 (Fin 0) [Fin (-90); Fin 0; Fin 90] "Uniform" =
  Ok (map (fun _ => NaN) [Fin (-90); Fin 0; Fin 90]).
Proof.
  apply (no_antenna_all_nan 0 4 (Fin 0) [Fin (-90); Fin 0; Fin 90] "Uniform").
  - left. lia.
  - right. lia.
  - discriminate.
Defined.

(** ** Steering to the opposite angle *)













(** ** Symmetry about broadside *)






(** ** Instances of the properties of the function *)

Lemma peak_alignment_nondegenerate_witness :
  exists out,
    mimo_array_response 8 4 (Fin (nth 2 [-90; 0; 30; 90] 0))
                        (map Fin [-90; 0; 30; 90]) "Hamming" = Ok out /\
    nth 2 out NaN = Fin 0 /\
    Forall (fun g => fle g (nth 2 out NaN)) out /\
    np_max out = Ok (Fin 0).
Proof.
  apply (peak_alignment_nondegenerate 8 4 "Hamming" [-90; 0; 30; 90] 2);
    first [lia | reflexivity | cbn; lia].
Defined.

Lemma at_most_0dB_not_nan (g : f64) : at_most_0dB g -> ~ is_nan g.
Proof. intros [-> | [y [-> _]]] H; exact H. Qed.

Lemma max_of_nan_free_response_witness :
  exists out,
    mimo_array_response 8 4 (Fin 0) (map Fin [0]) "Hamming" = Ok out /\
    np_max out = Ok (Fin 0).
Proof.
  destruct (response_normalized 8 4 "Hamming" 0 0 [0]) as [out [E [_ F]]];
    try lia; try reflexivity.
  - now left.
  - rewrite Rminus_diag, Rabs_R0. lra.
  - exists out. split; [exact E |].
    apply (max_of_nan_free_response 8 4 (Fin 0) (map Fin [0]) "Hamming" out E).
    eapply Forall_impl; [| exact F]. apply at_most_0dB_not_nan.
Defined.

Lemma windowVector_unit_norm_witness :
  exists win,
    windowVector "Hamming" 8 = Ok win /\
    List.length win = Z.to_nat 8 /\
    linalg_norm win = Fin 1 /\
    within_tol (linalg_norm win) (Fin 1).
Proof.
  apply (windowVector_unit_norm "Hamming" 8); [lia | reflexivity].
Defined.
